(** * Hangman engine: a shallow embedding of [hangman_game/main.py]

    The development models the engine part of the program: the
    [GameState] dataclass with its derived properties, and the
    [HangmanEngine] class with [__init__], [new_game] and [guess].

    Conventions of the embedding:
    - a Python [str] is a [string]; each [ascii] stands for the code
      point of the same number, so the strings covered are those over
      U+0000..U+00FF.  On that range [str.strip], [str.lower] and
      [str.isalpha] are written out from the Unicode tables CPython uses
      and they never leave the range;
    - a Python [int] is a [Z];
    - [Set[str]] is a [gset string];
    - a timestamp is a binary64 [float]; the reading of [time.time()] is
      passed to the function that asks for it;
    - [random.Random] is the stream of raw numbers the generator will
      produce together with a cursor into it;
    - a raised exception is the [Raise] outcome of the call. *)

From Stdlib Require Import ZArith NArith Ascii String List Bool Lia.
From Stdlib Require Import Floats.PrimFloat.
From stdpp Require Import base decidable option list gmap strings.

Local Open Scope string_scope.
Local Open Scope Z_scope.

(** ** Python string built-ins *)

Module PyStr.

(** [ord(c)] *)
Definition ord (c : ascii) : N := N_of_ascii c.

Definition in_range (lo hi n : N) : bool := ((lo <=? n) && (n <=? hi))%N.

(** [c.isspace()]: the white space of [str.strip()] without argument.
    Below U+0100 these are TAB..CR, FS..US, SPACE, NEL and NBSP. *)
Definition chr_isspace (c : ascii) : bool :=
  let n := ord c in
  in_range 9 13 n || in_range 28 32 n || (n =? 133)%N || (n =? 160)%N.

(** [c.isalpha()]: general category L*.  Below U+0100: A-Z, a-z,
    U+00AA, U+00B5, U+00BA, U+00C0-U+00D6, U+00D8-U+00F6,
    U+00F8-U+00FF. *)
Definition chr_isalpha (c : ascii) : bool :=
  let n := ord c in
  in_range 65 90 n || in_range 97 122 n
  || (n =? 170)%N || (n =? 181)%N || (n =? 186)%N
  || in_range 192 214 n || in_range 216 246 n || in_range 248 255 n.

(** [c.lower()]: A-Z, U+00C0-U+00D6 and U+00D8-U+00DE move up by 32,
    every other code point below U+0100 is its own lower case. *)
Definition chr_lower (c : ascii) : ascii :=
  let n := ord c in
  if in_range 65 90 n || in_range 192 214 n || in_range 216 222 n
  then ascii_of_N (n + 32)
  else c.

(** [len(s)] *)
Definition len (s : string) : Z := Z.of_nat (String.length s).

(** truth value of a string: [bool(s)] *)
Definition truthy (s : string) : bool :=
  match s with EmptyString => false | String _ _ => true end.

(** [s.lstrip()] *)
Fixpoint lstrip (s : string) : string :=
  match s with
  | EmptyString => EmptyString
  | String c s' => if chr_isspace c then lstrip s' else s
  end.

(** [s.rstrip()] *)
Fixpoint rstrip (s : string) : string :=
  match s with
  | EmptyString => EmptyString
  | String c s' =>
      match rstrip s' with
      | EmptyString => if chr_isspace c then EmptyString else String c EmptyString
      | r => String c r
      end
  end.

(** [s.strip()] *)
Definition strip (s : string) : string := rstrip (lstrip s).

(** [s.lower()] *)
Fixpoint lower (s : string) : string :=
  match s with
  | EmptyString => EmptyString
  | String c s' => String (chr_lower c) (lower s')
  end.

Fixpoint all_chars (p : ascii -> bool) (s : string) : bool :=
  match s with
  | EmptyString => true
  | String c s' => p c && all_chars p s'
  end.

(** [s.isalpha()]: every character is alphabetic and there is at
    least one. *)
Definition isalpha (s : string) : bool := truthy s && all_chars chr_isalpha s.

(** [sub in s] for two strings: [sub] occurs in [s] as a substring. *)
Fixpoint contains (s sub : string) : bool :=
  String.prefix sub s
  || match s with
     | EmptyString => false
     | String _ s' => contains s' sub
     end.

(** iteration over a string, [for ch in s]: the characters as
    strings of length one, in order. *)
Fixpoint chars (s : string) : list string :=
  match s with
  | EmptyString => []
  | String c s' => String c EmptyString :: chars s'
  end.

(** [sep.join(parts)] *)
Fixpoint join (sep : string) (parts : list string) : string :=
  match parts with
  | [] => EmptyString
  | [p] => p
  | p :: rest => String.append p (String.append sep (join sep rest))
  end.

(** [s.replace(old, "")] for a one-character [old]. *)
Fixpoint remove_char (old : ascii) (s : string) : string :=
  match s with
  | EmptyString => EmptyString
  | String c s' =>
      if Ascii.eqb c old then remove_char old s' else String c (remove_char old s')
  end.

End PyStr.
Import PyStr.

(** ** The state snapshot: [class GameState] *)

Record GameState := mkGameState {
  secret : string;
  max_mistakes : Z;
  guessed : gset string;
  mistakes : Z;
  started_at : float;
  ended_at : option float
}.

(** [x in self.guessed] *)
Definition in_guessed (x : string) (g : gset string) : bool := bool_decide (x ∈ g).

(** [all(ch in guessed for ch in secret)] *)
Definition all_in (g : gset string) (s : string) : bool :=
  forallb (fun ch => in_guessed ch g) (chars s).

(** [GameState.masked] *)
Definition masked (self : GameState) : string :=
  join " " (map (fun ch => if in_guessed ch (guessed self) then ch else "_")
                (chars (secret self))).

(** [GameState.wrong_letters] *)
Definition wrong_letters (self : GameState) : gset string :=
  filter (fun g => contains (secret self) g = false) (guessed self).

(** [GameState.remaining] *)
Definition remaining (self : GameState) : Z := max_mistakes self - mistakes self.

(** [GameState.won] *)
Definition won (self : GameState) : bool := all_in (guessed self) (secret self).

(** [GameState.lost] *)
Definition lost (self : GameState) : bool := mistakes self >=? max_mistakes self.

(** [GameState.finished] *)
Definition finished (self : GameState) : bool := won self || lost self.

(** ** The engine: [class HangmanEngine] *)

Inductive Exception :=
| ValueError (msg : string)
| IndexError (msg : string).

Inductive outcome (A : Type) :=
| Ok (a : A)
| Raise (e : Exception).
Arguments Ok {A} a.
Arguments Raise {A} e.

(** [random.Random]: [raw_stream k] is the [k]-th raw number of the
    generator, [cursor] counts the draws made so far. *)
Record Random := mkRandom {
  raw_stream : nat -> nat;
  cursor : nat
}.

(** [rng._randbelow(n)] for [n > 0]: a number below [n], one draw used. *)
Definition _randbelow (rng : Random) (n : nat) : nat * Random :=
  ((raw_stream rng (cursor rng) mod n)%nat,
   {| raw_stream := raw_stream rng; cursor := S (cursor rng) |}).

(** [rng.choice(seq)]: [IndexError] on an empty sequence, otherwise
    [seq[rng._randbelow(len(seq))]]. *)
Definition choice {A} (rng : Random) (seq : list A) : outcome (A * Random) :=
  match seq with
  | [] => Raise (IndexError "Cannot choose from an empty sequence")
  | _ =>
      let (i, rng') := _randbelow rng (length seq) in
      match seq !! i with
      | Some x => Ok (x, rng')
      | None => Raise (IndexError "list index out of range")
      end
  end.

Record HangmanEngine := mkEngine {
  _words : list string;
  _max_mistakes : Z;
  _rng : Random
}.

(** [HangmanEngine.__init__(words, max_mistakes, rng)].  [fresh] is the
    generator [random.Random()] would build from the system's entropy;
    it is used only when [rng] is [None].  [int(max_mistakes)] is the
    identity on an [int]. *)
Definition __init__ (words : list string) (max_mistakes : Z)
    (rng : option Random) (fresh : Random) : outcome HangmanEngine :=
  let vocab := map (fun w => lower (strip w))
                   (filter (fun w => truthy w && truthy (strip w) = true) words) in
  match vocab with
  | [] => Raise (ValueError "Word list must not be empty.")
  | _ =>
      let ws := filter (fun w => isalpha w = true) vocab in
      match ws with
      | [] => Raise (ValueError "Word list must contain at least one alphabetic word.")
      | _ =>
          Ok {| _words := ws;
                _max_mistakes := Z.max 1 max_mistakes;
                _rng := match rng with Some r => r | None => fresh end |}
      end
  end.

(** [HangmanEngine.new_game()].  [now] is the reading of [time.time()]
    taken by the default of [started_at]; the engine comes back with
    its generator advanced. *)
Definition new_game (self : HangmanEngine) (now : float)
    : outcome (GameState * HangmanEngine) :=
  match choice (_rng self) (_words self) with
  | Raise e => Raise e
  | Ok (secret, rng') =>
      Ok ({| secret := secret;
             max_mistakes := _max_mistakes self;
             guessed := ∅;
             mistakes := 0;
             started_at := now;
             ended_at := None |},
          {| _words := _words self;
             _max_mistakes := _max_mistakes self;
             _rng := rng' |})
  end.

(** [HangmanEngine.guess(state, raw)]; [self] is not read by the method.
    [now] is what [time.time()] returns if the method asks for it.
    [raw or ""] is [raw] for every string. *)
Definition guess (state : GameState) (raw : string) (now : float) : GameState :=
  if finished state then state
  else
    let letter := lower (strip raw) in
    if negb ((len letter =? 1) && isalpha letter) then state
    else if in_guessed letter (guessed state) then state
    else
      let guessed' := guessed state ∪ {[ letter ]} in
      let mistakes' := mistakes state + (if contains (secret state) letter then 0 else 1) in
      let ended_at' :=
        if (mistakes' >=? max_mistakes state) || all_in guessed' (secret state)
        then Some now else None in
      {| secret := secret state;
         max_mistakes := max_mistakes state;
         guessed := guessed';
         mistakes := mistakes';
         started_at := started_at state;
         ended_at := ended_at' |}.

(** A run of guesses, each with the clock reading of its call. *)
Definition guesses (state : GameState) (inputs : list (string * float)) : GameState :=
  fold_left (fun s '(raw, now) => guess s raw now) inputs state.


(** ** Notions used to state the properties *)

(** The engines [__init__] can return. *)
Definition constructed (e : HangmanEngine) : Prop :=
  exists words budget rng fresh, __init__ words budget rng fresh = Ok e.

(** The states a player can see: the result of [new_game] on a
    constructed engine, and whatever [guess] returns on such a state. *)
Inductive reachable : GameState -> Prop :=
| reachable_new e now s e' :
    constructed e -> new_game e now = Ok (s, e') -> reachable s
| reachable_guess s raw now :
    reachable s -> reachable (guess s raw now).

(** The filtered vocabulary in the words of the specification: every
    candidate trimmed and lowercased, the empty and the non-alphabetic
    ones discarded. *)
Definition spec_vocabulary (words : list string) : list string :=
  filter (fun w => truthy w && isalpha w = true)
         (map (fun w => lower (strip w)) words).

(** The masked rendering with its separators taken out,
    [masked.replace(" ", "")]. *)
Definition masked_stripped (s : GameState) : string := remove_char " " (masked s).

(** The placeholder-or-letter rendering of one character of the secret. *)
Definition reveal (g : gset string) (c : ascii) : ascii :=
  if in_guessed (String c EmptyString) g then c else "_"%char.

(** The secret with every character rendered by [reveal]. *)
Fixpoint reveal_all (g : gset string) (s : string) : string :=
  match s with
  | EmptyString => EmptyString
  | String c s' => String (reveal g c) (reveal_all g s')
  end.

(** [guess] with its first test made on [ended_at] instead of
    [finished]; the rest is the body of [guess]. *)
Definition guess_on_ended_at (state : GameState) (raw : string) (now : float) : GameState :=
  match ended_at state with
  | Some _ => state
  | None =>
      let letter := lower (strip raw) in
      if negb ((len letter =? 1) && isalpha letter) then state
      else if in_guessed letter (guessed state) then state
      else
        let guessed' := guessed state ∪ {[ letter ]} in
        let mistakes' := mistakes state + (if contains (secret state) letter then 0 else 1) in
        let ended_at' :=
          if (mistakes' >=? max_mistakes state) || all_in guessed' (secret state)
          then Some now else None in
        {| secret := secret state;
           max_mistakes := max_mistakes state;
           guessed := guessed';
           mistakes := mistakes';
           started_at := started_at state;
           ended_at := ended_at' |}
  end.

(** The state [guess] builds once a letter has passed every test. *)
Definition accepted (state : GameState) (letter : string) (now : float) : GameState :=
  let guessed' := guessed state ∪ {[ letter ]} in
  let mistakes' := mistakes state + (if contains (secret state) letter then 0 else 1) in
  {| secret := secret state;
     max_mistakes := max_mistakes state;
     guessed := guessed';
     mistakes := mistakes';
     started_at := started_at state;
     ended_at := if (mistakes' >=? max_mistakes state) || all_in guessed' (secret state)
                 then Some now else None |}.

(** A generator for the examples: every raw number is [0]. *)
Definition rng0 : Random := {| raw_stream := fun _ => 0%nat; cursor := 0 |}.

(** The engine of the examples, or an engine without words when
    construction raises. *)
Definition engine_of (words : list string) (budget : Z) : HangmanEngine :=
  match __init__ words budget (Some rng0) rng0 with
  | Ok e => e
  | Raise _ => {| _words := []; _max_mistakes := 0; _rng := rng0 |}
  end.

(** The first game of an engine, started at time [0]. *)
Definition first_game (e : HangmanEngine) : GameState :=
  match new_game e 0%float with
  | Ok (s, _) => s
  | Raise _ => {| secret := ""; max_mistakes := 0; guessed := ∅; mistakes := 0;
                  started_at := 0%float; ended_at := None |}
  end.

(** ** The rest of the module: constants, [duration], the word-list
    loader and the interactive loop *)

(** [_DEFAULT_WORDS] *)
Definition _DEFAULT_WORDS : list string :=
  [ "python"; "variable"; "function"; "algorithm"; "optimization"; "network";
    "matrix"; "iterator"; "package"; "generator"; "computation"; "notebook";
    "research"; "datastructure"; "recursion"; "scheduling"; "fog"; "cloud";
    "bytecode"; "protocol" ].

(** The line feed that separates the rows of a frame. *)
Definition LF : string := String (ascii_of_N 10) EmptyString.

(** [_HANGMAN_FRAMES]: every frame is a raw string that starts with a
    line feed, given here by its rows. *)
Definition _HANGMAN_FRAMES : list string :=
  map (join LF)
    [ [ ""; "     +---+"; "     |   |"; "         |"; "         |";
        "         |"; "         |"; "    =========" ];
      [ ""; "     +---+"; "     |   |"; "     O   |"; "         |";
        "         |"; "         |"; "    =========" ];
      [ ""; "     +---+"; "     |   |"; "     O   |"; "     |   |";
        "         |"; "         |"; "    =========" ];
      [ ""; "     +---+"; "     |   |"; "     O   |"; "    /|   |";
        "         |"; "         |"; "    =========" ];
      [ ""; "     +---+"; "     |   |"; "     O   |"; "    /|\  |";
        "         |"; "         |"; "    =========" ];
      [ ""; "     +---+"; "     |   |"; "     O   |"; "    /|\  |";
        "    /    |"; "         |"; "    =========" ];
      [ ""; "     +---+"; "     |   |"; "     O   |"; "    /|\  |";
        "    / \  |"; "         |"; "    =========" ] ].

(** [seq[i]] on a Python list: a negative index counts from the end, an
    index outside [-len, len) raises [IndexError]. *)
Definition getitem {A} (seq : list A) (i : Z) : outcome A :=
  let n := Z.of_nat (length seq) in
  let j := if i <? 0 then i + n else i in
  if (j <? 0) || (n <=? j) then Raise (IndexError "list index out of range")
  else match seq !! Z.to_nat j with
       | Some x => Ok x
       | None => Raise (IndexError "list index out of range")
       end.

(** The frame [play] draws for a state:
    [_HANGMAN_FRAMES[min(state.mistakes, len(_HANGMAN_FRAMES) - 1)]]. *)
Definition frame_index (state : GameState) : Z :=
  Z.min (mistakes state) (Z.of_nat (length _HANGMAN_FRAMES) - 1).

Definition frame (state : GameState) : outcome string :=
  getitem _HANGMAN_FRAMES (frame_index state).

(** truth value of a float: [x != 0.0] *)
Definition float_truthy (x : float) : bool := negb (PrimFloat.eqb x 0%float).

(** [GameState.duration()]; [now] is the reading of [time.time()] taken
    when [ended_at] is [None]. *)
Definition duration (self : GameState) (now : float) : option float :=
  let end_ := match ended_at self with Some t => t | None => now end in
  if float_truthy end_ then Some (PrimFloat.sub end_ (started_at self)) else None.

(** [_load_words_from_file(path)], on the lines the opened file yields. *)
Definition _load_words_from_file (lines : list string) : list string :=
  fold_left
    (fun (words : list string) line =>
       let w := lower (strip line) in
       if truthy w && isalpha w then (words ++ [w])%list else words)
    lines [].

(** How a call of [play] ends: it returns an exit code, an exception
    of the engine or of the frame table escapes, or [input()] finds
    the standard input exhausted ([EOFError]). *)
Inductive play_result :=
| Exit (code : Z)
| Uncaught (e : Exception)
| EndOfInput.

(** The [while not state.finished] loop of [play] and the code after
    it, over the lines [input()] will return, each with the reading of
    the clock at that turn.  What the loop prints is left out; the frame
    is looked up because the lookup can raise. *)
Fixpoint play_loop (state : GameState) (inputs : list (string * float)) : play_result :=
  match frame state with
  | Raise e => Uncaught e
  | Ok _ =>
      if finished state then Exit (if won state then 0 else 1)
      else
        match inputs with
        | [] => EndOfInput
        | (line, now) :: rest =>
            let raw := strip line in
            if negb (truthy raw) then play_loop state rest
            else play_loop (guess state raw now) rest
        end
  end.

(** [play(words, max_mistakes, seed)]; [rng] is the generator
    [random.Random(seed)] builds, [now] the clock at [new_game]. *)
Definition play (words : option (list string)) (max_mistakes : Z) (rng : Random)
    (now : float) (inputs : list (string * float)) : play_result :=
  let words' := match words with
                | Some (w :: ws) => w :: ws
                | _ => _DEFAULT_WORDS
                end in
  match __init__ words' max_mistakes (Some rng) rng with
  | Raise e => Uncaught e
  | Ok engine =>
      match new_game engine now with
      | Raise e => Uncaught e
      | Ok (state, _) => play_loop state inputs
      end
  end.

(** The [main] path from a word-list file to the game: the loader's
    result when [--wordlist] is given, [None] otherwise. *)
Definition play_from_file (wordlist : option (list string)) (max_mistakes : Z)
    (rng : Random) (now : float) (inputs : list (string * float)) : play_result :=
  play (option_map _load_words_from_file wordlist) max_mistakes rng now inputs.

(** ** Notions used to state the further properties *)

(** The vocabulary [play] hands to the constructor,
    [words or _DEFAULT_WORDS]. *)
Definition effective_words (words : option (list string)) : list string :=
  match words with
  | Some (w :: ws) => w :: ws
  | _ => _DEFAULT_WORDS
  end.

(** A word list that is not empty and has no valid word. *)
Definition no_valid_word (words : option (list string)) : Prop :=
  exists w ws, words = Some (w :: ws) /\ spec_vocabulary (w :: ws) = [].

(** The characters of the secret that are not guessed yet. *)
Definition unguessed (s : GameState) : gset string :=
  list_to_set (chars (secret s)) ∖ guessed s.

(** What is left of a game: letters still hidden plus mistakes still
    allowed. *)
Definition game_measure (s : GameState) : Z :=
  Z.of_nat (size (unguessed s)) + remaining s.

(** The number of calls in a run of guesses that changed the state. *)
Fixpoint accepted_count (s : GameState) (inputs : list (string * float)) : nat :=
  match inputs with
  | [] => 0%nat
  | (raw, now) :: rest =>
      let s' := guess s raw now in
      ((if bool_decide (guessed s' = guessed s) then 0 else 1)
       + accepted_count s' rest)%nat
  end.

(** ** The repository's tests, replayed on the embedding *)

Example test_engine_win_path :
  let state := guesses (first_game (engine_of ["abc"] 6))
                 [("a", 1%float); ("b", 2%float); ("c", 3%float)] in
  won state = true /\ finished state = true /\ lost state = false /\ mistakes state = 0.
Proof. vm_compute. auto. Qed.

Example test_engine_counts_mistakes_and_repeats_are_ignored :
  let s0 := first_game (engine_of ["abc"] 2) in
  let s := guess s0 "x" 1%float in
  let s2 := guess s "x" 2%float in
  let s3 := guess s "xy" 3%float in
  let s4 := guess s "y" 4%float in
  mistakes s = 1 /\ in_guessed "x" (guessed s) = true /\
  mistakes s2 = 1 /\ s2 = s /\ s3 = s /\
  lost s4 = true /\ finished s4 = true /\ mistakes s4 = 2.
Proof. vm_compute. repeat split; reflexivity. Qed.

Example test_masked_representation_and_wrong_letters :
  let s := guesses (first_game (engine_of ["banana"] 6))
             [("b", 1%float); ("x", 2%float)] in
  masked s = "b _ _ _ _ _" /\ masked_stripped s = "b_____" /\
  wrong_letters s = {[ "x" ]}.
Proof. vm_compute. repeat split; reflexivity. Qed.

(** Normalisation of the raw input: surrounding white space goes, upper
    case is folded, and a letter outside ASCII is a letter. *)
Example normalise_examples :
  lower (strip "  Q ") = "q" /\
  lower (strip (String (ascii_of_N 9) (String (ascii_of_N 201) (String (ascii_of_N 10) ""))))
    = String (ascii_of_N 233) "" /\
  isalpha (String (ascii_of_N 233) "") = true /\
  isalpha "a1" = false /\ isalpha "" = false /\
  strip " a b " = "a b" /\ contains "banana" "nan" = true /\
  contains "banana" "" = true /\ contains "banana" "x" = false.
Proof. vm_compute. repeat split; reflexivity. Qed.

(** ** Facts about the string built-ins *)

Section StrFacts.

Implicit Types (s sub letter : string) (c : ascii).

Lemma len_one letter : len letter = 1 -> exists c, letter = String c "".
Proof.
  destruct letter as [|c [|d rest]]; unfold len; simpl; intros H; try lia.
  now exists c.
Qed.

Lemma len_one_iff letter : (len letter =? 1) = true <-> exists c, letter = String c "".
Proof.
  rewrite Z.eqb_eq. split; [apply len_one|].
  now intros [c ->].
Qed.

Lemma isalpha_char c : isalpha (String c "") = chr_isalpha c.
Proof. unfold isalpha; simpl. now rewrite andb_true_r. Qed.

Lemma isalpha_empty : isalpha "" = false.
Proof. reflexivity. Qed.

Lemma isalpha_truthy s : isalpha s = true -> truthy s = true.
Proof. unfold isalpha. now intros [H _]%andb_true_iff. Qed.

Lemma prefix_char c s :
  String.prefix (String c "") s = true <-> exists rest, s = String c rest.
Proof.
  destruct s as [|a rest]; simpl.
  - split; [discriminate | now intros [? ?]].
  - destruct (ascii_dec c a) as [->|Hne].
    + split; [now exists rest | now destruct rest].
    + split; [discriminate | intros [r [= ? ?]]; congruence].
Qed.

(** For a one-character string, [sub in s] is membership among the
    characters of [s]. *)
Lemma contains_char s c :
  contains s (String c "") = true <-> String c "" ∈ chars s.
Proof.
  induction s as [|a s IH].
  - simpl. split; [discriminate | intros H; inversion H].
  - cbn [contains chars]. rewrite orb_true_iff, IH, prefix_char, elem_of_cons.
    split.
    + intros [[rest [= -> _]] | H]; [now left | now right].
    + intros [[= ->] | H]; [left; now exists s | now right].
Qed.

Lemma chars_length s : length (chars s) = String.length s.
Proof. induction s; simpl; congruence. Qed.

Lemma elem_of_chars s x :
  x ∈ chars s <-> exists c, x = String c "" /\ In c (list_ascii_of_string s).
Proof.
  induction s as [|a s IH]; simpl.
  - split; [intros H; inversion H | now intros (? & _ & [])].
  - rewrite elem_of_cons, IH. split.
    + intros [-> | (c & -> & H)]; [exists a | exists c]; auto.
    + intros (c & -> & [-> | H]); [now left | right; now exists c].
Qed.

(** An alphabetic character is not white space. *)
Lemma chr_isalpha_not_space c : chr_isalpha c = true -> chr_isspace c = false.
Proof. destruct c as [[] [] [] [] [] [] [] []]; vm_compute; congruence. Qed.

(** Lower case is stable under [lower]. *)
Lemma chr_lower_idem c : chr_lower (chr_lower c) = chr_lower c.
Proof. destruct c as [[] [] [] [] [] [] [] []]; reflexivity. Qed.

Lemma lower_idem s : lower (lower s) = lower s.
Proof. induction s; simpl; [|rewrite chr_lower_idem]; congruence. Qed.

Lemma lstrip_alpha s : all_chars chr_isalpha s = true -> lstrip s = s.
Proof.
  destruct s as [|c s]; simpl; [reflexivity|].
  intros [Hc _]%andb_true_iff. now rewrite (chr_isalpha_not_space _ Hc).
Qed.

Lemma rstrip_alpha s : all_chars chr_isalpha s = true -> rstrip s = s.
Proof.
  induction s as [|c s IH]; simpl; [reflexivity|].
  intros [Hc Hs]%andb_true_iff. rewrite (IH Hs).
  destruct s; [now rewrite (chr_isalpha_not_space _ Hc) | reflexivity].
Qed.

(** An alphabetic string has no white space to trim. *)
Lemma strip_alpha s : isalpha s = true -> strip s = s.
Proof.
  unfold isalpha, strip. intros [_ H]%andb_true_iff.
  now rewrite (lstrip_alpha _ H), (rstrip_alpha _ H).
Qed.

Lemma lower_empty s : lower s = "" <-> s = "".
Proof. destruct s; simpl; split; congruence. Qed.

End StrFacts.

(** ** Facts about the derived properties and [guess] *)

Lemma in_guessed_true x g : in_guessed x g = true <-> x ∈ g.
Proof. unfold in_guessed. apply bool_decide_eq_true. Qed.

Lemma in_guessed_false x g : in_guessed x g = false <-> x ∉ g.
Proof. unfold in_guessed. apply bool_decide_eq_false. Qed.

Lemma all_in_true g s : all_in g s = true <-> forall ch, ch ∈ chars s -> ch ∈ g.
Proof.
  unfold all_in. rewrite forallb_forall. split; intros H ch Hch.
  - apply in_guessed_true, H, list_elem_of_In, Hch.
  - apply in_guessed_true, H, list_elem_of_In, Hch.
Qed.

Lemma lost_true s : lost s = true <-> max_mistakes s <= mistakes s.
Proof. unfold lost. rewrite Z.geb_le. reflexivity. Qed.

Lemma finished_true s :
  finished s = true <->
  (forall ch, ch ∈ chars (secret s) -> ch ∈ guessed s) \/ max_mistakes s <= mistakes s.
Proof. unfold finished, won. now rewrite orb_true_iff, all_in_true, lost_true. Qed.

(** The four ways through [guess]. *)
Lemma guess_cases state raw now :
  let letter := lower (strip raw) in
  (finished state = true /\ guess state raw now = state) \/
  (finished state = false /\ (len letter =? 1) && isalpha letter = false /\
   guess state raw now = state) \/
  (finished state = false /\ (len letter =? 1) && isalpha letter = true /\
   letter ∈ guessed state /\ guess state raw now = state) \/
  (finished state = false /\ (len letter =? 1) && isalpha letter = true /\
   (letter ∉ guessed state) /\ guess state raw now = accepted state letter now).
Proof.
  intros letter. unfold guess. fold letter.
  destruct (finished state); [now left | right].
  destruct ((len letter =? 1) && isalpha letter); simpl; [right | now left].
  destruct (in_guessed letter (guessed state)) eqn:Hg.
  - left. apply in_guessed_true in Hg. auto.
  - right. apply in_guessed_false in Hg. auto.
Qed.

Lemma guess_same_or_accepted state raw :
  (forall now, guess state raw now = state) \/
  (finished state = false /\ (lower (strip raw) ∉ guessed state) /\
   forall now, guess state raw now = accepted state (lower (strip raw)) now).
Proof.
  unfold guess.
  destruct (finished state); [now left|].
  destruct ((len (lower (strip raw)) =? 1) && isalpha (lower (strip raw)));
    simpl; [|now left].
  destruct (in_guessed _ (guessed state)) eqn:Hg; [now left | right].
  apply in_guessed_false in Hg. auto.
Qed.

Lemma accepted_finished state letter now :
  ended_at (accepted state letter now) =
  if finished (accepted state letter now) then Some now else None.
Proof.
  unfold finished, won, lost, accepted; simpl. now rewrite orb_comm.
Qed.

Lemma accepted_mistakes_bounds state letter now :
  mistakes state <= mistakes (accepted state letter now) <= mistakes state + 1.
Proof. unfold accepted; simpl. destruct (contains _ _); lia. Qed.

(** ** The transition [guess] *)

(** C1: on a state that is not finished, a raw input whose trimmed,
    lowercased form [letter] is one alphabetic character not yet in
    [guessed] yields a state whose [guessed] is the old set with [letter]
    added, whose [mistakes] grows by one exactly when [letter] is not a
    character of [secret], whose [ended_at] holds the clock reading when
    the new state is finished (all characters of [secret] guessed, or
    [mistakes >= max_mistakes]) and is [None] otherwise, and whose
    [secret], [max_mistakes] and [started_at] are those of the input. *)
Theorem guess_accepts_new_letter (s : GameState) (raw letter : string) (now : float) :
  finished s = false ->
  lower (strip raw) = letter ->
  len letter = 1 ->
  isalpha letter = true ->
  letter ∉ guessed s ->
  let s' := guess s raw now in
  guessed s' = guessed s ∪ {[ letter ]} /\
  (letter ∉ chars (secret s) -> mistakes s' = mistakes s + 1) /\
  (letter ∈ chars (secret s) -> mistakes s' = mistakes s) /\
  (finished s' = true <->
     (forall ch, ch ∈ chars (secret s) -> ch ∈ guessed s') \/
     max_mistakes s <= mistakes s') /\
  (finished s' = true -> ended_at s' = Some now) /\
  (finished s' = false -> ended_at s' = None) /\
  secret s' = secret s /\ max_mistakes s' = max_mistakes s /\
  started_at s' = started_at s.
Proof.
  intros Hfin Hraw Hlen Halpha Hnew s'.
  assert (Hs' : s' = accepted s letter now).
  { subst s'. destruct (guess_cases s raw now)
      as [[H _]|[(_ & H & _)|[(_ & _ & H & _)|(_ & _ & _ & H)]]]; rewrite ?Hraw in *.
    - congruence.
    - apply Z.eqb_eq in Hlen. rewrite Hlen, Halpha in H. discriminate.
    - contradiction.
    - exact H. }
  destruct (len_one _ Hlen) as [c Hc].
  assert (Hocc : contains (secret s) letter = true <-> letter ∈ chars (secret s)).
  { rewrite Hc. apply contains_char. }
  rewrite Hs'. repeat split.
  - intros Hno. unfold accepted; simpl.
    destruct (contains (secret s) letter); [exfalso; apply Hno, Hocc; reflexivity | reflexivity].
  - intros Hyes. unfold accepted; simpl.
    apply Hocc in Hyes. rewrite Hyes. lia.
  - intros H. apply finished_true in H. exact H.
  - intros H. apply finished_true. exact H.
  - intros H. now rewrite accepted_finished, H.
  - intros H. now rewrite accepted_finished, H.
Qed.

Lemma guess_accepts_new_letter_witness :
  let s := first_game (engine_of ["abc"] 2) in
  let s' := guess s " X " 1%float in
  guessed s' = guessed s ∪ {[ "x" ]} /\ mistakes s' = 1 /\ ended_at s' = None.
Proof.
  intros s s'.
  destruct (guess_accepts_new_letter s " X " "x" 1%float)
    as (Hg & Hm & _ & _ & _ & He & _).
  - reflexivity.
  - reflexivity.
  - reflexivity.
  - reflexivity.
  - compute_done.
  - split; [exact Hg|]. split.
    + apply Hm. compute_done.
    + apply He. reflexivity.
Defined.

(** C2: on a finished state (won or lost) [guess] returns its input
    state, whatever the raw input and the clock are: no field changes. *)
Theorem guess_finished_frozen (s : GameState) (raw : string) (now : float) :
  finished s = true -> guess s raw now = s.
Proof. intros H. unfold guess. now rewrite H. Qed.

Lemma guess_finished_frozen_witness :
  let s := guesses (first_game (engine_of ["abc"] 2))
             [("x", 1%float); ("y", 2%float)] in
  lost s = true /\ guess s "a" 3%float = s.
Proof.
  intros s. split; [reflexivity|].
  apply (guess_finished_frozen s "a" 3%float). reflexivity.
Defined.

(** C3: a rejected input, one whose trimmed and lowercased form is not
    exactly one alphabetic character or is already in [guessed], makes
    [guess] return its input state.  [guess] is a total function with a
    [GameState] as its value, so there is no exceptional outcome. *)
Theorem guess_rejected_is_noop (s : GameState) (raw : string) (now : float) :
  let letter := lower (strip raw) in
  len letter <> 1 \/ isalpha letter = false \/ letter ∈ guessed s ->
  guess s raw now = s.
Proof.
  intros letter Hrej.
  destruct (guess_cases s raw now)
    as [[_ H]|[(_ & _ & H)|[(_ & _ & _ & H)|(_ & Hok & Hnew & _)]]]; try exact H.
  fold letter in Hok, Hnew. apply andb_true_iff in Hok as [Hlen Halpha].
  apply Z.eqb_eq in Hlen. destruct Hrej as [Hrej|[Hrej|Hrej]]; [lia | congruence | contradiction].
Qed.

Lemma guess_rejected_is_noop_witness :
  let s := guess (first_game (engine_of ["abc"] 2)) "x" 1%float in
  guess s "" 2%float = s /\ guess s "12" 2%float = s /\
  guess s "ab" 2%float = s /\ guess s "7" 2%float = s /\ guess s " X" 2%float = s.
Proof.
  intros s. split; [|split; [|split; [|split]]].
  - apply (guess_rejected_is_noop s "" 2%float). left. compute_done.
  - apply (guess_rejected_is_noop s "12" 2%float). left. compute_done.
  - apply (guess_rejected_is_noop s "ab" 2%float). left. compute_done.
  - apply (guess_rejected_is_noop s "7" 2%float). right; left. reflexivity.
  - apply (guess_rejected_is_noop s " X" 2%float). right; right. compute_done.
Defined.

Lemma guess_monotone_step (s : GameState) (raw : string) (now : float) :
  mistakes s <= mistakes (guess s raw now) /\ guessed s ⊆ guessed (guess s raw now).
Proof.
  destruct (guess_same_or_accepted s raw) as [H | (_ & _ & H)]; rewrite H.
  - split; [lia | set_solver].
  - split; [apply accepted_mistakes_bounds | unfold accepted; simpl; set_solver].
Qed.

(** C5: one call of [guess] never lowers [mistakes] and never removes a
    member of [guessed], for every state and every raw input; hence the
    same holds from the first to the last state of any run of guesses. *)
Theorem guess_monotone (s : GameState) (raw : string) (now : float)
    (inputs : list (string * float)) :
  (mistakes s <= mistakes (guess s raw now) /\ guessed s ⊆ guessed (guess s raw now)) /\
  (mistakes s <= mistakes (guesses s inputs) /\ guessed s ⊆ guessed (guesses s inputs)).
Proof.
  split; [apply guess_monotone_step|].
  revert s. induction inputs as [|[r t] inputs IH]; intros s.
  - simpl. split; [lia | set_solver].
  - change (guesses s ((r, t) :: inputs)) with (guesses (guess s r t) inputs).
    destruct (IH (guess s r t)) as [Hm Hg].
    destruct (guess_monotone_step s r t) as [Hm' Hg'].
    split; [lia | transitivity (guessed (guess s r t)); assumption].
Qed.

(** C6: guessing the same input twice in a row is absorbed: the second
    call returns the state the first call returned.  This holds for every
    raw input, in particular for every single alphabetic letter. *)
Theorem guess_repeat_absorbed (s : GameState) (x : string) (t1 t2 : float) :
  guess (guess s x t1) x t2 = guess s x t1.
Proof.
  destruct (guess_same_or_accepted s x) as [H | (Hf & Hnew & H)].
  - now rewrite !H.
  - rewrite H.
    destruct (guess_same_or_accepted (accepted s (lower (strip x)) t1) x)
      as [H2 | (_ & Hnew2 & _)]; [apply H2|].
    exfalso. apply Hnew2. unfold accepted; simpl. set_solver.
Qed.

(** ** Construction and [new_game] *)

Lemma strip_not_truthy w : truthy w && truthy (strip w) = false -> strip w = "".
Proof.
  destruct w as [|c w]; [reflexivity|]. simpl.
  destruct (strip (String c w)); [reflexivity | discriminate].
Qed.

(** The two filters of [__init__] compute the filtered vocabulary of the
    specification. *)
Lemma init_filters_spec words :
  filter (fun w => isalpha w = true)
    (map (fun w => lower (strip w))
       (filter (fun w => truthy w && truthy (strip w) = true) words))
  = spec_vocabulary words.
Proof.
  unfold spec_vocabulary. induction words as [|w words IH]; [reflexivity|].
  rewrite (filter_cons _ w). cbn [map]. rewrite !filter_cons.
  destruct (decide (truthy w && truthy (strip w) = true)) as [Hw|Hw].
  - cbn [map]. rewrite filter_cons, IH.
    destruct (decide (isalpha (lower (strip w)) = true)) as [Ha|Ha].
    + rewrite decide_True; [reflexivity|].
      now rewrite Ha, (isalpha_truthy _ Ha).
    + rewrite decide_False; [reflexivity|].
      intros [_ H]%andb_true_iff. contradiction.
  - rewrite IH. apply not_true_is_false, strip_not_truthy in Hw.
    rewrite Hw. cbn [lower]. rewrite decide_False; [reflexivity | discriminate].
Qed.

(** What [__init__] returns, by the filtered vocabulary. *)
Lemma init_outcome words budget rng fresh :
  match spec_vocabulary words with
  | [] => exists msg, __init__ words budget rng fresh = Raise (ValueError msg)
  | ws => __init__ words budget rng fresh =
          Ok {| _words := ws;
                _max_mistakes := Z.max 1 budget;
                _rng := match rng with Some r => r | None => fresh end |}
  end.
Proof.
  rewrite <- init_filters_spec. unfold __init__.
  destruct (map _ (filter _ words)) as [|v vocab]; [cbn; eauto|].
  destruct (filter _ (v :: vocab)); [eauto | reflexivity].
Qed.

Lemma init_ok_inv words budget rng fresh e :
  __init__ words budget rng fresh = Ok e ->
  _words e = spec_vocabulary words /\ _words e <> [] /\
  _max_mistakes e = Z.max 1 budget.
Proof.
  intros H. pose proof (init_outcome words budget rng fresh) as Ho.
  destruct (spec_vocabulary words) as [|w ws].
  - destruct Ho as [msg Ho]. congruence.
  - rewrite Ho in H. injection H as <-. simpl. repeat split. discriminate.
Qed.

Lemma constructed_inv e :
  constructed e ->
  exists words, _words e = spec_vocabulary words /\ _words e <> [] /\ 1 <= _max_mistakes e.
Proof.
  intros (words & budget & rng & fresh & H). exists words.
  destruct (init_ok_inv _ _ _ _ _ H) as (Hw & Hne & Hm).
  repeat split; [assumption .. | lia].
Qed.

Lemma spec_vocabulary_elem words x :
  x ∈ spec_vocabulary words <->
  isalpha x = true /\ exists w, w ∈ words /\ x = lower (strip w).
Proof.
  unfold spec_vocabulary. rewrite list_elem_of_filter, list_elem_of_fmap.
  split.
  - intros [[_ Ha]%andb_true_iff (w & -> & Hw)]. eauto.
  - intros (Ha & w & Hw & ->). split; [|eauto].
    now rewrite Ha, (isalpha_truthy _ Ha).
Qed.

Lemma choice_nonempty {A} (rng : Random) (seq : list A) :
  seq <> [] -> exists x rng', choice rng seq = Ok (x, rng') /\ x ∈ seq.
Proof.
  intros Hne. unfold choice, _randbelow.
  destruct seq as [|a seq]; [contradiction|].
  set (l := a :: seq) in *.
  destruct (lookup_lt_is_Some_2 l (raw_stream rng (cursor rng) mod length l)%nat)
    as [x Hx].
  { apply Nat.mod_upper_bound. discriminate. }
  rewrite Hx. eexists _, _. split; [reflexivity|].
  eapply list_elem_of_lookup_2, Hx.
Qed.

Lemma new_game_inv e now s e' :
  new_game e now = Ok (s, e') ->
  secret s ∈ _words e /\ max_mistakes s = _max_mistakes e /\ guessed s = ∅ /\
  mistakes s = 0 /\ started_at s = now /\ ended_at s = None /\
  _words e' = _words e /\ _max_mistakes e' = _max_mistakes e.
Proof.
  unfold new_game. destruct (_words e) as [|w ws] eqn:Hw.
  - discriminate.
  - destruct (choice_nonempty (_rng e) (w :: ws)) as (x & rng' & Hc & Hx); [discriminate|].
    rewrite Hc. intros [= <- <-]. simpl. repeat split. exact Hx.
Qed.

(** C7: construction raises (a [ValueError], the engine's configuration
    error) exactly when the filtered vocabulary, every candidate trimmed
    and lowercased with the empty and non-alphabetic ones discarded, is
    empty, and returns an engine exactly when it is not.  So it raises for
    no words at all and for words none of which is alphabetic once
    trimmed, and succeeds as soon as one word is. *)
Theorem init_raises_iff_vocabulary_empty
    (words : list string) (budget : Z) (rng : option Random) (fresh : Random) :
  ((exists msg, __init__ words budget rng fresh = Raise (ValueError msg))
     <-> spec_vocabulary words = []) /\
  ((exists e, __init__ words budget rng fresh = Ok e)
     <-> spec_vocabulary words <> []) /\
  (words = [] -> exists msg, __init__ words budget rng fresh = Raise (ValueError msg)) /\
  ((forall w, w ∈ words -> isalpha (lower (strip w)) = false) ->
     exists msg, __init__ words budget rng fresh = Raise (ValueError msg)) /\
  ((exists w, w ∈ words /\ isalpha (lower (strip w)) = true) ->
     exists e, __init__ words budget rng fresh = Ok e).
Proof.
  pose proof (init_outcome words budget rng fresh) as Ho.
  assert (Hraise : spec_vocabulary words = [] ->
                   exists msg, __init__ words budget rng fresh = Raise (ValueError msg)).
  { intros Hv. now rewrite Hv in Ho. }
  assert (Hok : spec_vocabulary words <> [] ->
                exists e, __init__ words budget rng fresh = Ok e).
  { intros Hv. destruct (spec_vocabulary words); [contradiction | eauto]. }
  split; [|split; [|split; [|split]]].
  - split; [|exact Hraise]. intros [msg Hm].
    destruct (spec_vocabulary words); [reflexivity | congruence].
  - split; [|exact Hok]. intros [e He] Hv.
    destruct (Hraise Hv) as [msg Hm]. congruence.
  - intros ->. apply Hraise. reflexivity.
  - intros Hall. apply Hraise.
    destruct (spec_vocabulary words) as [|x xs] eqn:Hv; [reflexivity|].
    assert (Hx : x ∈ spec_vocabulary words) by (rewrite Hv; left).
    apply spec_vocabulary_elem in Hx as (Ha & w & Hw & ->).
    rewrite (Hall w Hw) in Ha. discriminate.
  - intros (w & Hw & Ha). apply Hok. intros Hv.
    assert (Hx : lower (strip w) ∈ spec_vocabulary words).
    { apply spec_vocabulary_elem. eauto. }
    rewrite Hv in Hx. inversion Hx.
Qed.

Example init_examples :
  __init__ [] 6 None rng0 = Raise (ValueError "Word list must not be empty.") /\
  __init__ ["  "; ""] 6 None rng0 = Raise (ValueError "Word list must not be empty.") /\
  __init__ ["123"; "a-b"] 6 None rng0 =
    Raise (ValueError "Word list must contain at least one alphabetic word.") /\
  _words (engine_of ["123"; " Abc "; ""; "x y"; "Zed"] 0) = ["abc"; "zed"] /\
  _max_mistakes (engine_of ["abc"] 0) = 1 /\
  _max_mistakes (engine_of ["abc"] (-4)) = 1 /\
  _max_mistakes (engine_of ["abc"] 9) = 9.
Proof. vm_compute. repeat split; reflexivity. Qed.

(** C8: on an engine that [__init__] returned, [new_game] returns a
    state (it does not raise) whose [secret] is a member of the filtered
    vocabulary, hence non-empty, alphabetic, free of surrounding white
    space and in lower case, whose [guessed] is empty, whose [mistakes]
    is [0], whose [ended_at] is [None], and whose [max_mistakes] is the
    budget given to the constructor raised to at least [1]. *)
Theorem new_game_fresh_state
    (words : list string) (budget : Z) (rng : option Random) (fresh : Random)
    (e : HangmanEngine) (now : float) :
  __init__ words budget rng fresh = Ok e ->
  exists s e',
    new_game e now = Ok (s, e') /\
    secret s ∈ spec_vocabulary words /\
    secret s <> "" /\ isalpha (secret s) = true /\
    strip (secret s) = secret s /\ lower (secret s) = secret s /\
    guessed s = ∅ /\ mistakes s = 0 /\ ended_at s = None /\
    max_mistakes s = Z.max 1 budget /\ 1 <= max_mistakes s.
Proof.
  intros Hinit. destruct (init_ok_inv _ _ _ _ _ Hinit) as (Hw & Hne & Hm).
  destruct (choice_nonempty (_rng e) (_words e) Hne) as (x & rng' & Hc & Hx).
  assert (Hng : new_game e now =
                Ok ({| secret := x; max_mistakes := _max_mistakes e; guessed := ∅;
                       mistakes := 0; started_at := now; ended_at := None |},
                    {| _words := _words e; _max_mistakes := _max_mistakes e;
                       _rng := rng' |})).
  { unfold new_game. now rewrite Hc. }
  eexists _, _. split; [exact Hng|]. simpl.
  rewrite Hw in Hx. pose proof Hx as Hx'.
  apply spec_vocabulary_elem in Hx' as (Ha & w & _ & Hxw).
  repeat split; try assumption.
  - intros ->. discriminate.
  - now apply strip_alpha.
  - rewrite Hxw. apply lower_idem.
  - lia.
Qed.

Lemma new_game_fresh_state_witness :
  exists s e',
    new_game (engine_of [" Abc "; "42"] 0) 5%float = Ok (s, e') /\
    secret s = "abc" /\ guessed s = ∅ /\ mistakes s = 0 /\
    ended_at s = None /\ max_mistakes s = 1.
Proof.
  destruct (new_game_fresh_state [" Abc "; "42"] 0 (Some rng0) rng0
              (engine_of [" Abc "; "42"] 0) 5%float eq_refl)
    as (s & e' & Hng & Hmem & _ & _ & _ & _ & Hg & Hm & He & Hmax & _).
  exists s, e'. repeat split; try assumption.
  change (spec_vocabulary [" Abc "; "42"]) with ["abc"] in Hmem.
  now apply list_elem_of_singleton in Hmem.
Defined.

(** ** Invariants of the reachable states *)

Lemma guess_keeps_budget s raw now :
  max_mistakes (guess s raw now) = max_mistakes s /\
  secret (guess s raw now) = secret s /\
  mistakes s <= mistakes (guess s raw now) <= mistakes s + 1.
Proof.
  destruct (guess_same_or_accepted s raw) as [H | (_ & _ & H)]; rewrite H.
  - repeat split; lia.
  - repeat split; apply accepted_mistakes_bounds.
Qed.

Lemma all_in_empty s : truthy s = true -> all_in ∅ s = false.
Proof. destruct s; [discriminate | reflexivity]. Qed.

Lemma new_game_not_finished e now s e' :
  constructed e -> new_game e now = Ok (s, e') ->
  finished s = false /\ ended_at s = None /\ isalpha (secret s) = true /\
  mistakes s = 0 /\ 1 <= max_mistakes s.
Proof.
  intros Hc Hng. destruct (constructed_inv e Hc) as (words & Hw & _ & Hmax).
  destruct (new_game_inv _ _ _ _ Hng) as (Hsec & Hm & Hg & Hmis & _ & Hend & _).
  rewrite Hw in Hsec. apply spec_vocabulary_elem in Hsec as [Ha _].
  repeat split; try assumption; [|lia].
  unfold finished, won, lost. rewrite Hg, Hmis, Hm.
  rewrite (all_in_empty _ (isalpha_truthy _ Ha)). simpl.
  rewrite Z.geb_leb. apply Z.leb_gt. lia.
Qed.

Lemma reachable_bounds s : reachable s -> 0 <= mistakes s <= max_mistakes s.
Proof.
  induction 1 as [e now s e' Hc Hng | s raw now Hr IH].
  - destruct (new_game_not_finished _ _ _ _ Hc Hng) as (_ & _ & _ & -> & Hmax). lia.
  - destruct (guess_same_or_accepted s raw) as [H | (Hf & _ & H)]; rewrite H; [exact IH|].
    pose proof (accepted_mistakes_bounds s (lower (strip raw)) now) as Hb.
    unfold finished in Hf. apply orb_false_iff in Hf as [_ Hl].
    unfold lost in Hl. rewrite Z.geb_leb in Hl. apply Z.leb_gt in Hl.
    change (max_mistakes (accepted s (lower (strip raw)) now)) with (max_mistakes s).
    lia.
Qed.

Lemma reachable_ended_at s : reachable s -> (is_Some (ended_at s) <-> finished s = true).
Proof.
  induction 1 as [e now s e' Hc Hng | s raw now Hr IH].
  - destruct (new_game_not_finished _ _ _ _ Hc Hng) as (-> & -> & _).
    split; [intros [? ?] |]; discriminate.
  - destruct (guess_same_or_accepted s raw) as [H | (_ & _ & H)]; rewrite H; [exact IH|].
    rewrite accepted_finished.
    destruct (finished (accepted s (lower (strip raw)) now)).
    + split; [reflexivity | eauto].
    + split; [intros [? ?] |]; discriminate.
Qed.

Lemma reachable_guesses s inputs : reachable s -> reachable (guesses s inputs).
Proof.
  revert s. induction inputs as [|[raw now] inputs IH]; intros s Hr; [exact Hr|].
  apply (IH (guess s raw now)). now constructor.
Qed.

(** C4: on every state reachable from [new_game] by calls of [guess],
    [mistakes] is at most [max_mistakes], so [remaining] is not negative;
    a lost state has [mistakes] equal to [max_mistakes], and the call of
    [guess] that turns a state into a lost one raises [mistakes] by one
    to exactly [max_mistakes]. *)
Theorem mistakes_within_budget (s : GameState) :
  reachable s ->
  mistakes s <= max_mistakes s /\
  0 <= remaining s /\
  (lost s = true -> mistakes s = max_mistakes s) /\
  (forall raw now,
     lost s = false -> lost (guess s raw now) = true ->
     mistakes (guess s raw now) = max_mistakes s /\
     mistakes (guess s raw now) = mistakes s + 1).
Proof.
  intros Hr. pose proof (reachable_bounds s Hr) as Hb.
  split; [lia|]. split; [unfold remaining; lia|]. split.
  - rewrite lost_true. lia.
  - intros raw now Hl Hl'.
    pose proof (reachable_bounds _ (reachable_guess s raw now Hr)) as Hb'.
    destruct (guess_keeps_budget s raw now) as (Hmax & _ & Hstep).
    apply lost_true in Hl'. rewrite Hmax in Hl', Hb'.
    unfold lost in Hl. rewrite Z.geb_leb in Hl. apply Z.leb_gt in Hl.
    lia.
Qed.

Lemma reachable_example (words : list string) (budget : Z) :
  spec_vocabulary words <> [] -> reachable (first_game (engine_of words budget)).
Proof.
  intros Hv. unfold engine_of, first_game.
  pose proof (init_outcome words budget (Some rng0) rng0) as Ho.
  destruct (spec_vocabulary words) as [|w ws] eqn:Hw; [contradiction|].
  rewrite Ho.
  set (e := {| _words := w :: ws; _max_mistakes := Z.max 1 budget; _rng := rng0 |}).
  assert (Hc : constructed e) by (exists words, budget, (Some rng0), rng0; exact Ho).
  destruct (choice_nonempty (_rng e) (_words e)) as (x & rng' & Hch & _); [discriminate|].
  assert (Hng : exists s e', new_game e 0%float = Ok (s, e')).
  { unfold new_game. rewrite Hch. eauto. }
  destruct Hng as (s & e' & Hng). rewrite Hng.
  exact (reachable_new e 0%float s e' Hc Hng).
Qed.

Lemma mistakes_within_budget_witness :
  let s0 := guess (first_game (engine_of ["abc"] 2)) "x" 1%float in
  let s := guess s0 "y" 2%float in
  mistakes s <= max_mistakes s /\ 0 <= remaining s /\ mistakes s = 2 /\
  mistakes s = mistakes s0 + 1.
Proof.
  intros s0 s.
  assert (Hr0 : reachable s0).
  { apply reachable_guess, reachable_example. vm_compute. discriminate. }
  destruct (mistakes_within_budget s (reachable_guess s0 "y" 2%float Hr0))
    as (Hle & Hrem & Hlost & _).
  destruct (mistakes_within_budget s0 Hr0) as (_ & _ & _ & Hstep).
  destruct (Hstep "y" 2%float eq_refl eq_refl) as [Hmax Hplus].
  split; [exact Hle|]. split; [exact Hrem|]. split; [exact (Hlost eq_refl) | exact Hplus].
Defined.

(** C10: on every state reachable from [new_game] by calls of [guess],
    [ended_at] is set exactly when the state is finished; a state that
    [new_game] has just returned is not finished and has no [ended_at];
    and [guess] returns what it would return if its first test were made
    on [ended_at] being set instead of on [finished]. *)
Theorem ended_at_iff_finished (s : GameState) :
  reachable s ->
  (is_Some (ended_at s) <-> finished s = true) /\
  (forall e now e', constructed e -> new_game e now = Ok (s, e') ->
     finished s = false /\ ended_at s = None) /\
  (forall raw now, guess s raw now = guess_on_ended_at s raw now).
Proof.
  intros Hr. pose proof (reachable_ended_at s Hr) as Hiff.
  split; [exact Hiff|]. split.
  - intros e now e' Hc Hng.
    destruct (new_game_not_finished _ _ _ _ Hc Hng) as (Hf & He & _). now split.
  - intros raw now. unfold guess, guess_on_ended_at.
    destruct (finished s) eqn:Hf.
    + destruct (proj2 Hiff eq_refl) as [t Ht]. now rewrite Ht.
    + destruct (ended_at s) as [t|] eqn:He; [|reflexivity].
      assert (false = true) by (apply Hiff; eauto).
      discriminate.
Qed.

Lemma ended_at_iff_finished_witness :
  let s0 := first_game (engine_of ["abc"] 2) in
  let s1 := guess s0 "x" 1%float in
  let s2 := guess s1 "y" 2%float in
  (finished s0 = false /\ ended_at s0 = None) /\
  (is_Some (ended_at s1) <-> finished s1 = true) /\
  is_Some (ended_at s2) /\
  guess s2 "a" 3%float = guess_on_ended_at s2 "a" 3%float.
Proof.
  intros s0 s1 s2.
  assert (Hr0 : reachable s0) by (apply reachable_example; vm_compute; discriminate).
  assert (Hr1 : reachable s1) by (apply reachable_guess, Hr0).
  assert (Hr2 : reachable s2) by (apply reachable_guess, Hr1).
  destruct (ended_at_iff_finished s0 Hr0) as (_ & Hfresh & _).
  destruct (ended_at_iff_finished s1 Hr1) as (Hiff1 & _).
  destruct (ended_at_iff_finished s2 Hr2) as (Hiff2 & _ & Hd).
  split; [|split; [exact Hiff1|split; [apply Hiff2; reflexivity | apply Hd]]].
  apply (Hfresh (engine_of ["abc"] 2) 0%float
           {| _words := ["abc"]; _max_mistakes := 2;
              _rng := {| raw_stream := fun _ => 0%nat; cursor := 1 |} |}).
  - exists ["abc"], 2, (Some rng0), rng0. reflexivity.
  - reflexivity.
Defined.

(** ** The masked rendering *)

Lemma mask_char g c :
  (if in_guessed (String c "") g then String c "" else "_") = String (reveal g c) "".
Proof. unfold reveal. now destruct (in_guessed _ g). Qed.

Lemma reveal_not_separator g c : c <> " "%char -> Ascii.eqb (reveal g c) " " = false.
Proof.
  intros Hc. unfold reveal. destruct (in_guessed _ g); [|reflexivity].
  now apply Ascii.eqb_neq.
Qed.

Lemma remove_join_cons r parts :
  Ascii.eqb r " " = false ->
  remove_char " " (join " " (String r "" :: parts))
  = String r (remove_char " " (join " " parts)).
Proof.
  intros Hr. destruct parts as [|q rest].
  - cbn [join remove_char]. now rewrite Hr.
  - change (join " " (String r "" :: q :: rest))
      with (String r (String " " (join " " (q :: rest)))).
    cbn [remove_char]. now rewrite Hr.
Qed.

(** Without a separator in the secret, taking the separators out of
    [masked] leaves the character-by-character rendering. *)
Lemma remove_join_reveal g s :
  " " ∉ chars s ->
  remove_char " "
    (join " " (map (fun ch => if in_guessed ch g then ch else "_") (chars s)))
  = reveal_all g s.
Proof.
  induction s as [|c s IH]; intros Hs; [reflexivity|].
  cbn [chars] in Hs. apply not_elem_of_cons in Hs as [Hc Hs].
  cbn [chars map reveal_all]. rewrite mask_char, remove_join_cons.
  - now rewrite IH.
  - apply reveal_not_separator. congruence.
Qed.

Lemma reveal_all_length g s : String.length (reveal_all g s) = String.length s.
Proof. induction s; simpl; congruence. Qed.

Lemma reveal_all_get g s i c :
  String.get i s = Some c -> String.get i (reveal_all g s) = Some (reveal g c).
Proof.
  revert i. induction s as [|a s IH]; intros i; [discriminate|].
  destruct i as [|i]; simpl; [congruence | apply IH].
Qed.

Lemma isalpha_no_separator s : isalpha s = true -> contains s " " = false.
Proof.
  intros [_ Ha]%andb_true_iff. apply not_true_iff_false.
  rewrite contains_char. induction s as [|c s IH]; [inversion 1|].
  cbn [all_chars] in Ha. apply andb_true_iff in Ha as [Hc Hs].
  cbn [chars]. rewrite not_elem_of_cons. split; [|now apply IH].
  intros [= <-]. discriminate.
Qed.

(** C9: for every state whose secret is alphabetic, as the data model
    has it and as every state of a game is, [masked] renders the secret
    with a placeholder for each character that is not in [guessed]:
    without its separators [masked] is as long as [secret], and its
    [i]-th character is the [i]-th character of [secret] when that
    character is in [guessed] and ["_"] otherwise. *)
Theorem masked_reveals_guessed (s : GameState) :
  isalpha (secret s) = true ->
  String.length (masked_stripped s) = String.length (secret s) /\
  (forall i c,
     String.get i (secret s) = Some c ->
     String.get i (masked_stripped s)
     = Some (if in_guessed (String c "") (guessed s) then c else "_"%char)).
Proof.
  intros Halpha.
  assert (Heq : masked_stripped s = reveal_all (guessed s) (secret s)).
  { unfold masked_stripped, masked. apply remove_join_reveal.
    rewrite <- contains_char, (isalpha_no_separator _ Halpha). discriminate. }
  rewrite Heq. split; [apply reveal_all_length|].
  intros i c Hget. apply (reveal_all_get (guessed s)) in Hget. exact Hget.
Qed.

Lemma masked_reveals_guessed_witness :
  let s := {| secret := "banana"; max_mistakes := 6; guessed := {[ "b" ]};
              mistakes := 0; started_at := 0%float; ended_at := None |} in
  masked_stripped s = "b_____" /\
  String.length (masked_stripped s) = 6%nat /\
  String.get 0 (masked_stripped s) = Some "b"%char /\
  String.get 3 (masked_stripped s) = Some "_"%char.
Proof.
  intros s.
  destruct (masked_reveals_guessed s eq_refl) as [Hlen Hget].
  split; [reflexivity|]. split; [exact Hlen|]. split.
  - exact (Hget 0%nat "b"%char eq_refl).
  - exact (Hget 3%nat "a"%char eq_refl).
Defined.

(** On the states of a game the secret is alphabetic, so the rendering
    holds for every one of them. *)
Lemma reachable_secret_alpha s : reachable s -> isalpha (secret s) = true.
Proof.
  induction 1 as [e now s e' Hc Hng | s raw now Hr IH].
  - now destruct (new_game_not_finished _ _ _ _ Hc Hng) as (_ & _ & Ha & _).
  - destruct (guess_keeps_budget s raw now) as (_ & -> & _). exact IH.
Qed.

Lemma masked_reachable s :
  reachable s -> masked_stripped s = reveal_all (guessed s) (secret s).
Proof.
  intros Hr. unfold masked_stripped, masked. apply remove_join_reveal.
  rewrite <- contains_char.
  rewrite (isalpha_no_separator _ (reachable_secret_alpha s Hr)). discriminate.
Qed.

(** Once [ended_at] is set on a state of a game, no call of [guess]
    changes anything. *)
Lemma reachable_ended_frozen s raw now :
  reachable s -> is_Some (ended_at s) -> guess s raw now = s.
Proof.
  intros Hr He. apply reachable_ended_at in He; [|exact Hr].
  unfold guess. now rewrite He.
Qed.

(** ** Further facts about the string built-ins *)

Section NormalForm.

Implicit Types (s t : string) (c : ascii).

Lemma chr_lower_space c : chr_isspace (chr_lower c) = chr_isspace c.
Proof. destruct c as [[] [] [] [] [] [] [] []]; reflexivity. Qed.

Lemma chr_lower_alpha c : chr_isalpha (chr_lower c) = chr_isalpha c.
Proof. destruct c as [[] [] [] [] [] [] [] []]; reflexivity. Qed.

Lemma lstrip_lower s : lstrip (lower s) = lower (lstrip s).
Proof.
  induction s as [|c s IH]; [reflexivity|].
  cbn [lower lstrip]. rewrite chr_lower_space.
  destruct (chr_isspace c); [exact IH | reflexivity].
Qed.

Lemma rstrip_lower s : rstrip (lower s) = lower (rstrip s).
Proof.
  induction s as [|c s IH]; [reflexivity|].
  cbn [lower rstrip]. rewrite IH, chr_lower_space.
  destruct (rstrip s); [|reflexivity].
  cbn [lower]. now destruct (chr_isspace c).
Qed.

Lemma strip_lower s : strip (lower s) = lower (strip s).
Proof. unfold strip. now rewrite lstrip_lower, rstrip_lower. Qed.

Lemma rstrip_idem s : rstrip (rstrip s) = rstrip s.
Proof.
  induction s as [|c s IH]; [reflexivity|].
  cbn [rstrip]. destruct (rstrip s) as [|d r] eqn:Hr.
  - destruct (chr_isspace c) eqn:Hc; [reflexivity|].
    cbn [rstrip]. now rewrite Hc.
  - change (rstrip (String c (String d r)))
      with (match rstrip (String d r) with
            | EmptyString => if chr_isspace c then EmptyString else String c EmptyString
            | String a b => String c (String a b)
            end).
    now rewrite IH.
Qed.

Lemma lstrip_head s :
  lstrip s = "" \/ exists c t, lstrip s = String c t /\ chr_isspace c = false.
Proof.
  induction s as [|c s IH]; [now left|].
  cbn [lstrip]. destruct (chr_isspace c) eqn:Hc; [exact IH | right; eauto].
Qed.

Lemma rstrip_keeps_head c t :
  chr_isspace c = false -> exists r, rstrip (String c t) = String c r.
Proof.
  intros Hc. cbn [rstrip]. destruct (rstrip t); [rewrite Hc|]; eauto.
Qed.

Lemma strip_idem s : strip (strip s) = strip s.
Proof.
  unfold strip. destruct (lstrip_head s) as [-> | (c & t & -> & Hc)]; [reflexivity|].
  destruct (rstrip_keeps_head c t Hc) as [r Hr].
  assert (Hl : lstrip (rstrip (String c t)) = rstrip (String c t)).
  { rewrite Hr. cbn [lstrip]. now rewrite Hc. }
  rewrite Hl. apply rstrip_idem.
Qed.

(** Trimming and lowercasing a second time changes nothing. *)
Lemma normalise_idem s : lower (strip (lower (strip s))) = lower (strip s).
Proof. now rewrite strip_lower, strip_idem, lower_idem. Qed.

Lemma isalpha_lower s : isalpha (lower s) = isalpha s.
Proof.
  unfold isalpha. f_equal; [now destruct s|].
  induction s as [|c s IH]; [reflexivity|].
  cbn [lower all_chars]. now rewrite chr_lower_alpha, IH.
Qed.

Lemma strip_empty_normal s : truthy (strip s) = false -> lower (strip s) = "".
Proof. destruct (strip s); [reflexivity | discriminate]. Qed.

End NormalForm.

(** ** Further properties of [guess] *)

(** X1: [guess] reads its raw input only through the trimmed and
    lowercased form: two inputs with the same form give the same state,
    and an input gives the same state as its own normal form. *)
Theorem guess_normalises_input (s : GameState) (raw raw' : string) (now : float) :
  guess s (lower (strip raw)) now = guess s raw now /\
  (lower (strip raw') = lower (strip raw) -> guess s raw' now = guess s raw now).
Proof.
  split.
  - unfold guess. now rewrite normalise_idem.
  - intros H. unfold guess. now rewrite H.
Qed.

Example guess_normalises_input_example :
  let s := first_game (engine_of ["abc"] 2) in
  guess s "  A " 1%float = guess s "a" 1%float.
Proof. reflexivity. Qed.

Lemma in_guessed_add_other g letter ch :
  ch <> letter -> in_guessed ch (g ∪ {[ letter ]}) = in_guessed ch g.
Proof.
  intros Hne. unfold in_guessed. apply bool_decide_ext.
  rewrite elem_of_union, elem_of_singleton. intuition congruence.
Qed.

Lemma all_in_add_absent g letter sec :
  letter ∉ chars sec -> all_in (g ∪ {[ letter ]}) sec = all_in g sec.
Proof.
  unfold all_in. induction (chars sec) as [|ch l IH]; intros Hn; [reflexivity|].
  apply not_elem_of_cons in Hn as [Hne Hl]. cbn [forallb].
  rewrite IH by exact Hl. f_equal. apply in_guessed_add_other. congruence.
Qed.

Lemma accepted_letter state raw now :
  finished state = false ->
  (len (lower (strip raw)) =? 1) && isalpha (lower (strip raw)) = true ->
  lower (strip raw) ∉ guessed state ->
  guess state raw now = accepted state (lower (strip raw)) now.
Proof.
  intros Hf Hok Hnew. unfold guess. rewrite Hf, Hok. simpl.
  apply in_guessed_false in Hnew. now rewrite Hnew.
Qed.

(** Induction over the states of a game with the facts [guess] has
    checked when it accepts a letter. *)
Lemma reachable_ind_accepted (P : GameState -> Prop) :
  (forall e now s e', constructed e -> new_game e now = Ok (s, e') -> P s) ->
  (forall s letter now,
     reachable s -> P s -> finished s = false ->
     len letter = 1 -> isalpha letter = true -> lower letter = letter ->
     letter ∉ guessed s ->
     P (accepted s letter now)) ->
  forall s, reachable s -> P s.
Proof.
  intros Hnew Hacc s Hr. induction Hr as [e now s e' Hc Hng | s raw now Hr IH].
  - eapply Hnew; eauto.
  - destruct (guess_cases s raw now)
      as [[_ H]|[(_ & _ & H)|[(_ & _ & _ & H)|(Hf & Hok & Hn & H)]]];
      rewrite H; try exact IH.
    apply andb_true_iff in Hok as [Hlen Ha]. apply Z.eqb_eq in Hlen.
    apply Hacc; auto. apply lower_idem.
Qed.

(** X2: on every state of a game, each member of [guessed] is a single
    alphabetic character in lower case. *)
Theorem guessed_are_single_lowercase_letters (s : GameState) (g : string) :
  reachable s -> g ∈ guessed s ->
  len g = 1 /\ isalpha g = true /\ lower g = g.
Proof.
  intros Hr. revert g. induction Hr using reachable_ind_accepted; intros g Hg.
  - match goal with H : new_game _ _ = _ |- _ =>
      destruct (new_game_inv _ _ _ _ H) as (_ & _ & Hempty & _) end.
    rewrite Hempty in Hg. set_solver.
  - unfold accepted in Hg; simpl in Hg.
    apply elem_of_union in Hg as [Hg | Hg%elem_of_singleton].
    + now apply IHHr.
    + subst g. auto.
Qed.

Lemma guessed_are_single_lowercase_letters_witness :
  let s := guesses (first_game (engine_of ["abc"] 3))
             [(" X", 1%float); ("ab", 2%float); ("B ", 3%float)] in
  "b" ∈ guessed s /\ len "b" = 1 /\ isalpha "b" = true /\ lower "b" = "b".
Proof.
  intros s.
  assert (Hr : reachable s).
  { apply reachable_guesses, reachable_example. vm_compute. discriminate. }
  assert (Hb : "b" ∈ guessed s) by compute_done.
  split; [exact Hb|].
  exact (guessed_are_single_lowercase_letters s "b" Hr Hb).
Defined.

Lemma reachable_won_lost s : reachable s -> won s && lost s = false.
Proof.
  intros Hr. induction Hr using reachable_ind_accepted.
  - match goal with Hc : constructed _, H : new_game _ _ = _ |- _ =>
      destruct (new_game_not_finished _ _ _ _ Hc H) as (Hf & _) end.
    unfold finished in Hf. apply orb_false_iff in Hf as [-> _]. reflexivity.
  - match goal with H : finished s = false |- _ =>
      unfold finished in H; apply orb_false_iff in H as [Hw Hl] end.
    unfold won, lost, accepted; simpl.
    destruct (contains (secret s) letter) eqn:Hc.
    + unfold lost in Hl. rewrite Z.add_0_r, Hl. apply andb_false_r.
    + assert (Hn : letter ∉ chars (secret s)).
      { destruct (len_one letter) as [c ->]; [assumption|].
        rewrite <- contains_char. congruence. }
      rewrite (all_in_add_absent _ _ _ Hn). unfold won in Hw. now rewrite Hw.
Qed.

(** X3: a state of a game is never won and lost at once. *)
Theorem won_and_lost_exclude (s : GameState) :
  reachable s -> won s && lost s = false.
Proof. apply reachable_won_lost. Qed.

Lemma won_and_lost_exclude_witness :
  let s := guesses (first_game (engine_of ["abc"] 1)) [("x", 1%float)] in
  lost s = true /\ won s && lost s = false.
Proof.
  intros s. split; [reflexivity|].
  apply (won_and_lost_exclude s).
  apply reachable_guesses, reachable_example. vm_compute. discriminate.
Defined.

(** ** The derived properties on the states of a game *)

Lemma wrong_letters_accepted s letter now :
  letter ∉ guessed s ->
  wrong_letters (accepted s letter now) =
  if contains (secret s) letter then wrong_letters s
  else wrong_letters s ∪ {[ letter ]}.
Proof.
  intros Hnew. unfold wrong_letters, accepted; simpl.
  rewrite filter_union_L by apply _. destruct (contains (secret s) letter) eqn:Hc.
  - pose proof (filter_singleton_False_L (C:=gset string)
                  (fun g => contains (secret s) g = false) letter) as E.
    rewrite E by congruence. apply union_empty_r_L.
  - pose proof (filter_singleton_True_L (C:=gset string)
                  (fun g => contains (secret s) g = false) letter Hc) as E.
    now rewrite E.
Qed.

(** X4: on every state of a game [mistakes] is the number of wrong
    letters, so [remaining] is [max_mistakes] minus that number. *)
Theorem mistakes_count_wrong_letters (s : GameState) :
  reachable s ->
  mistakes s = Z.of_nat (size (wrong_letters s)) /\
  remaining s = max_mistakes s - Z.of_nat (size (wrong_letters s)).
Proof.
  intros Hr.
  assert (H : mistakes s = Z.of_nat (size (wrong_letters s))).
  { induction Hr using reachable_ind_accepted.
    - match goal with H : new_game _ _ = _ |- _ =>
        destruct (new_game_inv _ _ _ _ H) as (_ & _ & Hempty & Hm & _) end.
      unfold wrong_letters. rewrite Hempty, Hm.
      rewrite filter_empty_L by apply _. now rewrite size_empty.
    - rewrite wrong_letters_accepted by assumption.
      unfold accepted; simpl. destruct (contains (secret s) letter); [lia|].
      rewrite size_union, size_singleton; [lia|].
      apply disjoint_singleton_r. unfold wrong_letters.
      rewrite elem_of_filter. tauto. }
  split; [exact H | unfold remaining; lia].
Qed.

Lemma mistakes_count_wrong_letters_witness :
  let s := guesses (first_game (engine_of ["abc"] 5))
             [("x", 1%float); ("a", 2%float); ("x", 3%float); ("y", 4%float)] in
  wrong_letters s = {[ "x"; "y" ]} /\ mistakes s = 2 /\ remaining s = 3.
Proof.
  intros s.
  assert (Hw : wrong_letters s = {[ "x"; "y" ]}) by (vm_compute; reflexivity).
  destruct (mistakes_count_wrong_letters s) as [Hm Hrem].
  { apply reachable_guesses, reachable_example. vm_compute. discriminate. }
  rewrite Hw in Hm, Hrem. split; [exact Hw|]. split; [exact Hm | exact Hrem].
Defined.

(** X5: a guess whose letter is not a character of the secret leaves
    [masked] as it was, on every state. *)
Theorem wrong_guess_keeps_masked (s : GameState) (raw : string) (now : float) :
  lower (strip raw) ∉ chars (secret s) ->
  masked (guess s raw now) = masked s.
Proof.
  intros Hn. destruct (guess_same_or_accepted s raw) as [H | (_ & _ & H)]; rewrite H;
    [reflexivity|].
  unfold masked, accepted; simpl. f_equal. apply map_ext_in.
  intros ch Hch%list_elem_of_In. rewrite in_guessed_add_other; [reflexivity|].
  intros ->. contradiction.
Qed.

Lemma wrong_guess_keeps_masked_witness :
  let s := guess (first_game (engine_of ["banana"] 6)) "b" 1%float in
  masked (guess s "x" 2%float) = "b _ _ _ _ _".
Proof.
  intros s.
  rewrite (wrong_guess_keeps_masked s "x" 2%float) by compute_done.
  reflexivity.
Defined.

Lemma reveal_all_id g s :
  all_chars chr_isalpha s = true -> (reveal_all g s = s <-> all_in g s = true).
Proof.
  unfold all_in. induction s as [|c s IH]; intros Ha; [easy|].
  cbn [all_chars] in Ha. apply andb_true_iff in Ha as [Hc Hs].
  cbn [reveal_all chars forallb]. rewrite andb_true_iff, <- (IH Hs).
  unfold reveal. destruct (in_guessed (String c "") g).
  - split; [intros [= ->]; auto | intros [_ ->]; reflexivity].
  - split; [|intros [? _]; discriminate].
    intros [= <- _]. discriminate.
Qed.

(** X6: on every state of a game, the game is won exactly when
    [masked] without its separators spells the secret. *)
Theorem won_iff_masked_spells_secret (s : GameState) :
  reachable s -> (won s = true <-> masked_stripped s = secret s).
Proof.
  intros Hr. rewrite (masked_reachable s Hr). unfold won.
  pose proof (reachable_secret_alpha s Hr) as [_ Ha]%andb_true_iff.
  symmetry. apply reveal_all_id, Ha.
Qed.

Lemma won_iff_masked_spells_secret_witness :
  let s := guesses (first_game (engine_of ["aba"] 6))
             [("b", 1%float); ("a", 2%float)] in
  masked_stripped s = "aba" /\ won s = true.
Proof.
  intros s.
  assert (Hm : masked_stripped s = "aba") by reflexivity.
  split; [exact Hm|].
  apply (won_iff_masked_spells_secret s); [|exact Hm].
  apply reachable_guesses, reachable_example. vm_compute. discriminate.
Defined.

(** ** Progress of a game *)

Lemma unguessed_accepted s letter now :
  len letter = 1 -> letter ∉ guessed s ->
  Z.of_nat (size (unguessed (accepted s letter now))) =
  Z.of_nat (size (unguessed s)) - (if contains (secret s) letter then 1 else 0).
Proof.
  intros Hlen Hnew. destruct (len_one letter Hlen) as [c ->].
  unfold unguessed, accepted; simpl.
  destruct (contains (secret s) (String c "")) eqn:Hc.
  - apply contains_char in Hc.
    assert (Hsub : {[ String c "" ]} ⊆ list_to_set (chars (secret s)) ∖ guessed s).
    { apply singleton_subseteq_l, elem_of_difference.
      split; [now apply elem_of_list_to_set | exact Hnew]. }
    pose proof (subseteq_size _ _ Hsub) as Hle. rewrite size_singleton in Hle.
    rewrite <- difference_difference_l_L, (size_difference _ _ Hsub), size_singleton.
    lia.
  - assert (Hn : String c "" ∉ chars (secret s)).
    { rewrite <- contains_char. congruence. }
    rewrite Z.sub_0_r. do 2 f_equal. apply set_eq. intros x.
    rewrite !elem_of_difference, elem_of_union, elem_of_singleton, elem_of_list_to_set.
    split; [tauto|]. intros [Hx Hg]. split; [exact Hx|].
    intros [?| ->]; contradiction.
Qed.

Lemma measure_accepted s letter now :
  len letter = 1 -> letter ∉ guessed s ->
  game_measure (accepted s letter now) = game_measure s - 1.
Proof.
  intros Hlen Hnew. unfold game_measure.
  rewrite (unguessed_accepted s letter now Hlen Hnew).
  unfold remaining, accepted; simpl. destruct (contains (secret s) letter); lia.
Qed.

Lemma guess_step_measure s raw now :
  (guessed (guess s raw now) = guessed s /\ guess s raw now = s) \/
  (guessed (guess s raw now) <> guessed s /\
   game_measure (guess s raw now) = game_measure s - 1).
Proof.
  destruct (guess_cases s raw now)
    as [[_ H]|[(_ & _ & H)|[(_ & _ & _ & H)|(Hf & Hok & Hn & H)]]];
    rewrite H; auto.
  right. apply andb_true_iff in Hok as [Hlen _]. apply Z.eqb_eq in Hlen. split.
  - unfold accepted; simpl. intros Heq. apply Hn. rewrite <- Heq.
    apply elem_of_union_r, elem_of_singleton. reflexivity.
  - now apply measure_accepted.
Qed.

Lemma measure_nonneg s : reachable s -> 0 <= game_measure s.
Proof.
  intros Hr. pose proof (reachable_bounds s Hr). unfold game_measure, remaining. lia.
Qed.

(** X7: every call of [guess] that changes the state lowers by one the
    sum of the letters of the secret still hidden and the mistakes still
    allowed; so a run of guesses on a state of a game changes the state
    at most that many times. *)
Theorem accepted_guesses_bounded (s : GameState) (inputs : list (string * float)) :
  reachable s ->
  game_measure (guesses s inputs) = game_measure s - Z.of_nat (accepted_count s inputs) /\
  Z.of_nat (accepted_count s inputs) <= game_measure s.
Proof.
  intros Hr.
  assert (H : game_measure (guesses s inputs)
              = game_measure s - Z.of_nat (accepted_count s inputs)).
  { clear Hr. revert s. induction inputs as [|[raw now] inputs IH]; intros s.
    - simpl. lia.
    - change (guesses s ((raw, now) :: inputs)) with (guesses (guess s raw now) inputs).
      cbn [accepted_count]. rewrite IH.
      destruct (guess_step_measure s raw now) as [[Hg Hs] | [Hg Hm]].
      + rewrite bool_decide_true by exact Hg. rewrite Hs. lia.
      + rewrite bool_decide_false by exact Hg. rewrite Hm. lia. }
  split; [exact H|].
  pose proof (measure_nonneg _ (reachable_guesses s inputs Hr)). lia.
Qed.

Lemma accepted_guesses_bounded_witness :
  let s := first_game (engine_of ["aba"] 2) in
  let inputs := [("x", 1%float); ("x", 2%float); ("a", 3%float); ("?", 4%float);
                 ("b", 5%float); ("y", 6%float)] in
  game_measure s = 4 /\ accepted_count s inputs = 3%nat /\
  game_measure (guesses s inputs) = 1.
Proof.
  intros s inputs.
  assert (Hm : game_measure s = 4) by (vm_compute; reflexivity).
  assert (Hc : accepted_count s inputs = 3%nat) by (vm_compute; reflexivity).
  destruct (accepted_guesses_bounded s inputs) as [Heq _].
  { apply reachable_example. vm_compute. discriminate. }
  rewrite Hm, Hc in Heq. split; [exact Hm|]. split; [exact Hc | exact Heq].
Defined.

Lemma chars_alpha s ch :
  all_chars chr_isalpha s = true -> ch ∈ chars s -> len ch = 1 /\ isalpha ch = true.
Proof.
  induction s as [|c s IH]; intros Ha Hch; [inversion Hch|].
  cbn [all_chars] in Ha. apply andb_true_iff in Ha as [Hc Hs].
  cbn [chars] in Hch. apply elem_of_cons in Hch as [-> | Hch]; [|now apply IH].
  now rewrite isalpha_char.
Qed.

Lemma chars_lower s ch : lower s = s -> ch ∈ chars s -> lower ch = ch.
Proof.
  induction s as [|c s IH]; intros Hl Hch; [inversion Hch|].
  cbn [lower] in Hl. injection Hl as Hc Hs.
  cbn [chars] in Hch. apply elem_of_cons in Hch as [-> | Hch]; [|now apply IH].
  cbn [lower]. now rewrite Hc.
Qed.

Lemma reachable_secret_lower s : reachable s -> lower (secret s) = secret s.
Proof.
  induction 1 as [e now s e' Hc Hng | s raw now Hr IH].
  - destruct (constructed_inv e Hc) as (words & Hw & _).
    destruct (new_game_inv _ _ _ _ Hng) as (Hsec & _).
    rewrite Hw in Hsec. apply spec_vocabulary_elem in Hsec as (_ & w & _ & ->).
    apply lower_idem.
  - destruct (guess_keeps_budget s raw now) as (_ & -> & _). exact IH.
Qed.

(** A character of the secret of a game is a valid guess as it is. *)
Lemma reachable_secret_chars s ch :
  reachable s -> ch ∈ chars (secret s) ->
  len ch = 1 /\ isalpha ch = true /\ lower (strip ch) = ch.
Proof.
  intros Hr Hch.
  pose proof (reachable_secret_alpha s Hr) as [_ Ha]%andb_true_iff.
  destruct (chars_alpha _ _ Ha Hch) as [Hlen Halpha].
  repeat split; try assumption.
  rewrite (strip_alpha _ Halpha). exact (chars_lower _ _ (reachable_secret_lower s Hr) Hch).
Qed.

Lemma all_in_false g s :
  all_in g s = false -> exists ch, ch ∈ chars s /\ ch ∉ g.
Proof.
  unfold all_in. induction (chars s) as [|x l IH]; [discriminate|].
  cbn [forallb]. intros [Hx | Hl]%andb_false_iff.
  - exists x. split; [left | now apply in_guessed_false].
  - destruct (IH Hl) as (ch & Hch & Hn). exists ch. split; [now right | exact Hn].
Qed.

(** What [guess] does with a character of the secret on a state that
    is not lost. *)
Lemma guess_secret_letter s ch now :
  reachable s -> lost s = false -> ch ∈ chars (secret s) ->
  ch ∈ guessed (guess s ch now) /\ mistakes (guess s ch now) = mistakes s /\
  (finished s = false -> ch ∉ guessed s ->
   guessed (guess s ch now) = guessed s ∪ {[ ch ]}).
Proof.
  intros Hr Hl Hch.
  destruct (reachable_secret_chars s ch Hr Hch) as (Hlen & Ha & Hnorm).
  assert (Hc : contains (secret s) ch = true).
  { destruct (len_one ch Hlen) as [c ->]. now apply contains_char. }
  destruct (guess_cases s ch now)
    as [[Hf H]|[(_ & Hbad & _)|[(Hf & _ & Hin & H)|(Hf & _ & Hn & H)]]];
    rewrite ?Hnorm in *.
  - rewrite H. unfold finished in Hf. rewrite Hl, orb_false_r in Hf.
    split; [|split; [reflexivity|]].
    + apply (proj1 (all_in_true _ _) Hf), Hch.
    + intros Hf2. unfold finished in Hf2. rewrite Hf in Hf2. discriminate.
  - apply Z.eqb_eq in Hlen. rewrite Hlen, Ha in Hbad. discriminate.
  - rewrite H. split; [exact Hin|]. split; [reflexivity | contradiction].
  - rewrite H. unfold accepted; simpl. rewrite Hc.
    split; [|split; [lia | reflexivity]].
    apply elem_of_union_r, elem_of_singleton. reflexivity.
Qed.

(** X8: a game that is not finished is never stuck: some character of
    the secret is not guessed yet, and [guess] accepts it, adds it to
    [guessed] and counts no mistake. *)
Theorem unfinished_game_can_progress (s : GameState) :
  reachable s -> finished s = false ->
  exists ch, ch ∈ chars (secret s) /\ (ch ∉ guessed s) /\
    forall now, guessed (guess s ch now) = guessed s ∪ {[ ch ]} /\
                mistakes (guess s ch now) = mistakes s.
Proof.
  intros Hr Hf. pose proof Hf as Hf'. unfold finished in Hf'.
  apply orb_false_iff in Hf' as [Hw Hl].
  destruct (all_in_false _ _ Hw) as (ch & Hch & Hn).
  exists ch. split; [exact Hch|]. split; [exact Hn|]. intros now.
  destruct (guess_secret_letter s ch now Hr Hl Hch) as (_ & Hm & Hg). auto.
Qed.

Lemma unfinished_game_can_progress_witness :
  let s := guess (first_game (engine_of ["ab"] 2)) "a" 1%float in
  exists ch, ch ∈ chars (secret s) /\ (ch ∉ guessed s) /\
    forall now, guessed (guess s ch now) = guessed s ∪ {[ ch ]} /\
                mistakes (guess s ch now) = mistakes s.
Proof.
  intros s. apply (unfinished_game_can_progress s); [|reflexivity].
  apply reachable_guess, reachable_example. vm_compute. discriminate.
Defined.

Lemma guesses_monotone s inputs : guessed s ⊆ guessed (guesses s inputs).
Proof.
  revert s. induction inputs as [|[raw now] inputs IH]; intros s; [reflexivity|].
  change (guesses s ((raw, now) :: inputs)) with (guesses (guess s raw now) inputs).
  transitivity (guessed (guess s raw now)); [apply guess_monotone_step | apply IH].
Qed.

Lemma guesses_secret_letters s inputs :
  reachable s -> lost s = false ->
  (forall raw, raw ∈ map fst inputs -> raw ∈ chars (secret s)) ->
  let s' := guesses s inputs in
  secret s' = secret s /\ mistakes s' = mistakes s /\
  forall raw, raw ∈ map fst inputs -> raw ∈ guessed s'.
Proof.
  revert s. induction inputs as [|[raw now] inputs IH]; intros s Hr Hl Hin.
  - simpl. repeat split. intros raw H. inversion H.
  - change (guesses s ((raw, now) :: inputs)) with (guesses (guess s raw now) inputs).
    cbn [map fst] in Hin.
    destruct (guess_secret_letter s raw now Hr Hl) as (Hg & Hm & _); [apply Hin; left|].
    destruct (guess_keeps_budget s raw now) as (Hmax & Hsec & _).
    destruct (IH (guess s raw now)) as (Hsec' & Hm' & Hall).
    + now constructor.
    + unfold lost in *. now rewrite Hmax, Hm.
    + intros r Hr'. rewrite Hsec. apply Hin. now right.
    + cbn zeta. split; [congruence|]. split; [congruence|].
      intros r [-> | Hr']%elem_of_cons; [|now apply Hall].
      apply (guesses_monotone (guess s raw now) inputs), Hg.
Qed.

(** X9: from a state of a game that is not lost, guessing the
    characters of the secret one after the other wins the game without
    a further mistake. *)
Theorem spelling_the_secret_wins (s : GameState) (inputs : list (string * float)) :
  reachable s -> lost s = false ->
  map fst inputs = chars (secret s) ->
  won (guesses s inputs) = true /\
  lost (guesses s inputs) = false /\
  mistakes (guesses s inputs) = mistakes s.
Proof.
  intros Hr Hl Hin.
  destruct (guesses_secret_letters s inputs Hr Hl) as (Hsec & Hm & Hall).
  { intros raw. now rewrite Hin. }
  split; [|split; [|exact Hm]].
  - unfold won. apply all_in_true. intros ch Hch. apply Hall.
    rewrite Hin. now rewrite Hsec in Hch.
  - pose proof (reachable_won_lost _ (reachable_guesses s inputs Hr)) as Hx.
    apply andb_false_iff in Hx as [Hx | Hx]; [|exact Hx].
    exfalso. assert (Hw : won (guesses s inputs) = true); [|congruence].
    unfold won. apply all_in_true. intros ch Hch. apply Hall.
    rewrite Hin. now rewrite Hsec in Hch.
Qed.

Lemma spelling_the_secret_wins_witness :
  let s := guess (first_game (engine_of ["banana"] 2)) "x" 1%float in
  let s' := guesses s [("b", 2%float); ("a", 3%float); ("n", 4%float);
                       ("a", 5%float); ("n", 6%float); ("a", 7%float)] in
  won s' = true /\ lost s' = false /\ mistakes s' = 1.
Proof.
  intros s s'.
  apply (spelling_the_secret_wins s); [|reflexivity|reflexivity].
  apply reachable_guess, reachable_example. vm_compute. discriminate.
Defined.

(** ** The word-list loader and the constructor *)

Lemma load_fold (lines acc : list string) :
  fold_left
    (fun (words : list string) line =>
       let w := lower (strip line) in
       if truthy w && isalpha w then (words ++ [w])%list else words)
    lines acc
  = (acc ++ spec_vocabulary lines)%list.
Proof.
  revert acc. induction lines as [|line lines IH]; intros acc.
  - simpl. now rewrite app_nil_r.
  - cbn [fold_left]. rewrite IH. unfold spec_vocabulary. cbn [map].
    rewrite filter_cons. cbv zeta.
    destruct (truthy (lower (strip line)) && isalpha (lower (strip line))) eqn:Hw.
    + rewrite decide_True by reflexivity. now rewrite <- app_assoc.
    + rewrite decide_False by discriminate. reflexivity.
Qed.

(** The loader computes the filtered vocabulary of its lines. *)
Lemma load_spec lines : _load_words_from_file lines = spec_vocabulary lines.
Proof. unfold _load_words_from_file. now rewrite load_fold. Qed.

Lemma spec_vocabulary_fixed words :
  (forall w, w ∈ words -> isalpha w = true /\ lower w = w) ->
  spec_vocabulary words = words.
Proof.
  unfold spec_vocabulary. induction words as [|w words IH]; intros Hall; [reflexivity|].
  destruct (Hall w) as [Ha Hl]; [left|].
  cbn [map]. rewrite filter_cons, (strip_alpha _ Ha), Hl.
  rewrite decide_True by now rewrite Ha, (isalpha_truthy _ Ha).
  f_equal. apply IH. intros x Hx. apply Hall. now right.
Qed.

Lemma spec_vocabulary_normal words w :
  w ∈ spec_vocabulary words -> isalpha w = true /\ lower w = w.
Proof.
  intros (Ha & x & _ & ->)%spec_vocabulary_elem. split; [exact Ha | apply lower_idem].
Qed.

Lemma spec_vocabulary_idem words :
  spec_vocabulary (spec_vocabulary words) = spec_vocabulary words.
Proof. apply spec_vocabulary_fixed, spec_vocabulary_normal. Qed.

Lemma init_determined words words' budget rng fresh :
  spec_vocabulary words = spec_vocabulary words' ->
  forall e, __init__ words budget rng fresh = Ok e ->
            __init__ words' budget rng fresh = Ok e.
Proof.
  intros Heq e He.
  pose proof (init_outcome words budget rng fresh) as Ho.
  pose proof (init_outcome words' budget rng fresh) as Ho'.
  rewrite <- Heq in Ho'. destruct (spec_vocabulary words).
  - destruct Ho as [msg Ho]. congruence.
  - congruence.
Qed.

(** X10: the engine built from the loader's result is the engine
    built from the raw lines: filtering in the loader and filtering again
    in the constructor give the same engine, and either construction
    succeeds exactly when the other does. *)
Theorem loader_agrees_with_constructor (lines : list string) (budget : Z)
    (rng : option Random) (fresh : Random) (e : HangmanEngine) :
  (__init__ (_load_words_from_file lines) budget rng fresh = Ok e <->
   __init__ lines budget rng fresh = Ok e) /\
  (__init__ lines budget rng fresh = Ok e -> _words e = _load_words_from_file lines).
Proof.
  rewrite load_spec. split; [split|].
  - apply init_determined, spec_vocabulary_idem.
  - apply init_determined. symmetry. apply spec_vocabulary_idem.
  - intros He. now destruct (init_ok_inv _ _ _ _ _ He) as (-> & _).
Qed.

Example loader_example :
  _load_words_from_file
    [ String.append "Apple" LF; LF; String.append "  two words" LF;
      String.append "x-ray" LF; String.append " KIWI  " LF; "fig" ]
  = ["apple"; "kiwi"; "fig"].
Proof. vm_compute. reflexivity. Qed.

Lemma init_words_fixed (e : HangmanEngine) (budget : Z)
    (rng : option Random) (fresh : Random) :
  constructed e ->
  __init__ (_words e) budget rng fresh =
  Ok {| _words := _words e;
        _max_mistakes := Z.max 1 budget;
        _rng := match rng with Some r => r | None => fresh end |}.
Proof.
  intros Hc. destruct (constructed_inv e Hc) as (words & Hw & Hne & _).
  pose proof (init_outcome (_words e) budget rng fresh) as Ho.
  assert (Hfix : spec_vocabulary (_words e) = _words e).
  { rewrite Hw. apply spec_vocabulary_idem. }
  rewrite Hfix in Ho.
  destruct (_words e); [contradiction | exact Ho].
Qed.

(** X11: the vocabulary of a constructed engine passes the constructor
    unchanged: building an engine from [_words] of an engine gives the
    same words, in the same order. *)
Theorem init_on_engine_words (e : HangmanEngine) (budget : Z)
    (rng : option Random) (fresh : Random) :
  constructed e ->
  __init__ (_words e) budget rng fresh =
  Ok {| _words := _words e;
        _max_mistakes := Z.max 1 budget;
        _rng := match rng with Some r => r | None => fresh end |}.
Proof. apply init_words_fixed. Qed.

Lemma init_on_engine_words_witness :
  _words (engine_of [" Abc "; "42"; "De"] 3) = ["abc"; "de"] /\
  __init__ ["abc"; "de"] 5 None rng0 =
  Ok {| _words := ["abc"; "de"]; _max_mistakes := 5; _rng := rng0 |}.
Proof.
  split; [reflexivity|].
  apply (init_on_engine_words (engine_of [" Abc "; "42"; "De"] 3) 5 None rng0).
  exists [" Abc "; "42"; "De"], 3, (Some rng0), rng0. reflexivity.
Defined.

(** X12: [new_game] leaves the engine ready for the next game: the
    words and the budget are unchanged, the generator has made one draw,
    and the engine is again one the constructor could have returned, so
    the next [new_game] does not raise either. *)
Theorem new_game_keeps_engine (e e' : HangmanEngine) (now : float) (s : GameState) :
  constructed e -> new_game e now = Ok (s, e') ->
  _words e' = _words e /\ _max_mistakes e' = _max_mistakes e /\
  cursor (_rng e') = S (cursor (_rng e)) /\
  constructed e' /\
  forall now', exists s2 e2, new_game e' now' = Ok (s2, e2).
Proof.
  intros Hc Hng.
  destruct (new_game_inv _ _ _ _ Hng) as (_ & _ & _ & _ & _ & _ & Hw & Hm).
  assert (Hcur : cursor (_rng e') = S (cursor (_rng e))).
  { unfold new_game, choice, _randbelow in Hng.
    destruct (_words e) as [|w ws]; [discriminate|].
    destruct ((w :: ws) !! _); [|discriminate].
    injection Hng as _ <-. reflexivity. }
  assert (Hc' : constructed e').
  { destruct (constructed_inv e Hc) as (words & _ & _ & Hmax).
    exists (_words e), (_max_mistakes e), (Some (_rng e')), (_rng e').
    rewrite (init_words_fixed e _ _ _ Hc). f_equal.
    destruct e' as [w' m' r']; simpl in *. f_equal; [auto | lia]. }
  repeat split; try assumption.
  intros now'. destruct (constructed_inv e' Hc') as (words & _ & Hne & _).
  destruct (choice_nonempty (_rng e') (_words e') Hne) as (x & rng' & Hch & _).
  unfold new_game. rewrite Hch. eauto.
Qed.

Lemma new_game_keeps_engine_witness :
  exists s e', new_game (engine_of ["abc"; "de"] 3) 1%float = Ok (s, e') /\
    _words e' = ["abc"; "de"] /\ _max_mistakes e' = 3 /\ cursor (_rng e') = 1%nat.
Proof.
  set (e := engine_of ["abc"; "de"] 3).
  assert (Hc : constructed e).
  { exists ["abc"; "de"], 3, (Some rng0), rng0. reflexivity. }
  destruct (new_game e 1%float) as [[s e']|ex] eqn:Hng; [|discriminate Hng].
  exists s, e'. split; [reflexivity|].
  destruct (new_game_keeps_engine e e' 1%float s Hc Hng) as (Hw & Hm & Hcur & _).
  repeat split; assumption.
Defined.

(** ** The frame table and [duration] *)

Lemma frames_length : length _HANGMAN_FRAMES = 7%nat.
Proof. reflexivity. Qed.

Lemma getitem_in_range {A} (seq : list A) (i : Z) :
  0 <= i < Z.of_nat (length seq) ->
  exists x, getitem seq i = Ok x /\ seq !! Z.to_nat i = Some x.
Proof.
  intros Hi. unfold getitem.
  destruct (i <? 0) eqn:Hneg; [apply Z.ltb_lt in Hneg; lia|].
  rewrite Hneg. simpl.
  destruct (Z.of_nat (length seq) <=? i) eqn:Hhi; [apply Z.leb_le in Hhi; lia|].
  destruct (lookup_lt_is_Some_2 seq (Z.to_nat i)) as [x Hx]; [lia|].
  rewrite Hx. eauto.
Qed.

Lemma frame_ok s :
  0 <= mistakes s ->
  exists f, frame s = Ok f /\
            _HANGMAN_FRAMES !! Z.to_nat (Z.min (mistakes s) 6) = Some f.
Proof.
  intros Hm. unfold frame, frame_index. rewrite frames_length.
  change (Z.of_nat 7 - 1) with 6.
  apply getitem_in_range. rewrite frames_length. lia.
Qed.

(** X13: on a state of a game the frame lookup of [play] never
    raises: it yields the frame numbered by [mistakes], and from six
    mistakes on the last frame, whatever [max_mistakes] is. *)
Theorem frame_lookup_in_range (s : GameState) :
  reachable s ->
  exists f, frame s = Ok f /\
    _HANGMAN_FRAMES !! Z.to_nat (Z.min (mistakes s) 6) = Some f /\
    (6 <= mistakes s -> Some f = last _HANGMAN_FRAMES).
Proof.
  intros Hr. destruct (frame_ok s) as (f & Hf & Hl).
  { pose proof (reachable_bounds s Hr). lia. }
  exists f. split; [exact Hf|]. split; [exact Hl|].
  intros H6. rewrite Z.min_r in Hl by lia. rewrite <- Hl. reflexivity.
Qed.

Lemma frame_lookup_in_range_witness :
  let s := guesses (first_game (engine_of ["abc"] 9))
             [("q", 1%float); ("r", 2%float); ("s", 3%float); ("t", 4%float);
              ("u", 5%float); ("v", 6%float); ("w", 7%float)] in
  mistakes s = 7 /\ finished s = false /\
  exists f, frame s = Ok f /\ Some f = last _HANGMAN_FRAMES.
Proof.
  intros s. split; [reflexivity|]. split; [reflexivity|].
  destruct (frame_lookup_in_range s) as (f & Hf & _ & Hlast).
  { apply reachable_guesses, reachable_example. vm_compute. discriminate. }
  exists f. split; [exact Hf|]. apply Hlast. vm_compute. discriminate.
Defined.

Example frame_edge_cases :
  let st m := {| secret := "a"; max_mistakes := 6; guessed := ∅; mistakes := m;
                 started_at := 0%float; ended_at := None |} in
  frame (st (-1)) = getitem _HANGMAN_FRAMES 6 /\
  frame (st (-8)) = Raise (IndexError "list index out of range") /\
  frame (st 100) = getitem _HANGMAN_FRAMES 6.
Proof. vm_compute. repeat split; reflexivity. Qed.

(** X14: once a game is finished its duration no longer depends on
    the clock: the time stored in [ended_at] is used. *)
Theorem duration_of_finished_game (s : GameState) (now now' : float) :
  reachable s -> finished s = true ->
  duration s now = duration s now' /\
  exists t, ended_at s = Some t /\
    duration s now =
    if float_truthy t then Some (PrimFloat.sub t (started_at s)) else None.
Proof.
  intros Hr Hf. apply (reachable_ended_at s Hr) in Hf as [t Ht].
  unfold duration. rewrite Ht. split; [reflexivity | eauto].
Qed.

Lemma duration_of_finished_game_witness :
  let s := guesses (first_game (engine_of ["ab"] 1)) [("z", 12.5%float)] in
  duration s 20%float = Some 12.5%float /\ duration s 99%float = Some 12.5%float.
Proof.
  intros s.
  destruct (duration_of_finished_game s 20%float 99%float) as [Heq _].
  - apply reachable_guesses, reachable_example. vm_compute. discriminate.
  - reflexivity.
  - split; [reflexivity | rewrite <- Heq; reflexivity].
Defined.

Example duration_edge_cases :
  let st e := {| secret := "a"; max_mistakes := 6; guessed := ∅; mistakes := 0;
                 started_at := 2%float; ended_at := e |} in
  duration (st None) 5%float = Some 3%float /\
  duration (st None) 0%float = None /\
  duration (st (Some 0%float)) 5%float = None /\
  duration (st (Some 4%float)) 5%float = Some 2%float.
Proof. vm_compute. repeat split; reflexivity. Qed.

(** ** The interactive loop [play] *)

Lemma guess_blank s line now : truthy (strip line) = false -> guess s line now = s.
Proof.
  intros Hb. unfold guess. rewrite (strip_empty_normal _ Hb).
  now destruct (finished s).
Qed.

Lemma guess_strip s line now : guess s (strip line) now = guess s line now.
Proof. unfold guess. now rewrite strip_idem. Qed.

Lemma guesses_finished s inputs : finished s = true -> guesses s inputs = s.
Proof.
  intros Hf. induction inputs as [|[raw now] inputs IH]; [reflexivity|].
  change (guesses s ((raw, now) :: inputs)) with (guesses (guess s raw now) inputs).
  assert (Hg : guess s raw now = s) by (unfold guess; now rewrite Hf).
  now rewrite Hg.
Qed.

(** The loop of [play] ends like the run of [guess] over all its input
    lines: the blank-line shortcut and the early exit change nothing. *)
Lemma play_loop_guesses s inputs :
  0 <= mistakes s ->
  play_loop s inputs =
  if finished (guesses s inputs)
  then Exit (if won (guesses s inputs) then 0 else 1)
  else EndOfInput.
Proof.
  revert s. induction inputs as [|[line now] inputs IH]; intros s Hm;
    destruct (frame_ok s Hm) as (f & Hf & _).
  - cbn [play_loop]. rewrite Hf. reflexivity.
  - cbn [play_loop]. rewrite Hf.
    change (guesses s ((line, now) :: inputs)) with (guesses (guess s line now) inputs).
    destruct (finished s) eqn:Hfin.
    + assert (Hg : guess s line now = s) by (unfold guess; now rewrite Hfin).
      now rewrite Hg, (guesses_finished s inputs Hfin), Hfin.
    + destruct (truthy (strip line)) eqn:Hb; cbn [negb].
      * rewrite guess_strip. apply IH.
        destruct (guess_keeps_budget s line now) as (_ & _ & Hstep). lia.
      * rewrite (guess_blank s line now Hb). now apply IH.
Qed.

(** X15: started on a state whose [mistakes] is not negative, the
    loop of [play] ends as the run of [guess] over all the input lines
    does: exit code [0] if that run ends won, [1] if it ends finished
    but not won, and the input runs out before the end otherwise;
    skipping blank lines and leaving the loop early change nothing, and
    nothing is raised. *)
Theorem play_loop_runs_guesses (s : GameState) (inputs : list (string * float)) :
  0 <= mistakes s ->
  play_loop s inputs =
  if finished (guesses s inputs)
  then Exit (if won (guesses s inputs) then 0 else 1)
  else EndOfInput.
Proof. apply play_loop_guesses. Qed.

Lemma play_loop_runs_guesses_witness :
  let s := first_game (engine_of ["abc"] 2) in
  play_loop s [(" A", 1%float); ("", 2%float); ("zz", 3%float); ("b ", 4%float);
               ("   ", 5%float); ("C", 6%float); ("q", 7%float)] = Exit 0 /\
  play_loop s [("x", 1%float); ("a", 2%float); ("Y", 3%float)] = Exit 1 /\
  play_loop s [("x", 1%float); ("a", 2%float)] = EndOfInput.
Proof.
  intros s.
  assert (Hm : 0 <= mistakes s) by (vm_compute; discriminate).
  split; [|split]; rewrite (play_loop_runs_guesses s _ Hm); reflexivity.
Defined.

(** X16: on a state of a game the exit code tells how the run of
    guesses ended: [0] exactly when it ended won, [1] exactly when it
    ended lost, and the input runs out exactly when it did not finish. *)
Theorem play_exit_code (s : GameState) (inputs : list (string * float)) :
  reachable s ->
  (play_loop s inputs = Exit 0 <-> won (guesses s inputs) = true) /\
  (play_loop s inputs = Exit 1 <-> lost (guesses s inputs) = true) /\
  (play_loop s inputs = EndOfInput <-> finished (guesses s inputs) = false).
Proof.
  intros Hr.
  rewrite (play_loop_guesses s inputs) by (pose proof (reachable_bounds s Hr); lia).
  pose proof (reachable_won_lost _ (reachable_guesses s inputs Hr)) as Hx.
  unfold finished. destruct (won (guesses s inputs)), (lost (guesses s inputs));
    simpl in *; try discriminate; repeat split; intros; congruence.
Qed.

Lemma play_exit_code_witness :
  let s := first_game (engine_of ["abc"] 2) in
  play_loop s [("x", 1%float); ("a", 2%float); ("Y", 3%float)] = Exit 1.
Proof.
  intros s.
  destruct (play_exit_code s [("x", 1%float); ("a", 2%float); ("Y", 3%float)])
    as (_ & H1 & _).
  - apply reachable_example. vm_compute. discriminate.
  - apply H1. reflexivity.
Defined.

Lemma default_words_fixed : spec_vocabulary _DEFAULT_WORDS = _DEFAULT_WORDS.
Proof. vm_compute. reflexivity. Qed.

Lemma play_on_valid_words words budget rng now inputs :
  spec_vocabulary words <> [] ->
  exists s, reachable s /\
    match __init__ words budget (Some rng) rng with
    | Raise e => Uncaught e
    | Ok engine =>
        match new_game engine now with
        | Raise e => Uncaught e
        | Ok (state, _) => play_loop state inputs
        end
    end = play_loop s inputs.
Proof.
  intros Hne. pose proof (init_outcome words budget (Some rng) rng) as Ho.
  destruct (spec_vocabulary words) as [|w ws] eqn:Hv; [contradiction|].
  rewrite Ho.
  set (e := {| _words := w :: ws; _max_mistakes := Z.max 1 budget; _rng := rng |}).
  assert (Hc : constructed e) by (exists words, budget, (Some rng), rng; exact Ho).
  destruct (choice_nonempty (_rng e) (_words e)) as (x & rng' & Hch & _); [discriminate|].
  destruct (new_game e now) as [[s e']|ex] eqn:Hng.
  - exists s. split; [exact (reachable_new e now s e' Hc Hng) | reflexivity].
  - unfold new_game in Hng. rewrite Hch in Hng. discriminate.
Qed.

Lemma play_loop_result s inputs :
  reachable s ->
  play_loop s inputs = Exit 0 \/ play_loop s inputs = Exit 1 \/
  play_loop s inputs = EndOfInput.
Proof.
  intros Hr.
  rewrite (play_loop_guesses s inputs) by (pose proof (reachable_bounds s Hr); lia).
  destruct (finished _); [destruct (won _)|]; auto.
Qed.

(** X17: started from a word-list file, or from no file at all, [play]
    never lets an exception escape: it returns [0] or [1], or the input
    runs out.  A file without a single valid word does not make
    construction fail; the default vocabulary is played instead. *)
Theorem play_from_file_never_raises (wordlist : option (list string)) (budget : Z)
    (rng : Random) (now : float) (inputs : list (string * float)) :
  (play_from_file wordlist budget rng now inputs = Exit 0 \/
   play_from_file wordlist budget rng now inputs = Exit 1 \/
   play_from_file wordlist budget rng now inputs = EndOfInput) /\
  (forall lines, wordlist = Some lines -> _load_words_from_file lines = [] ->
     play_from_file wordlist budget rng now inputs =
     play_from_file None budget rng now inputs).
Proof.
  split.
  - unfold play_from_file, play.
    set (words' := match option_map _load_words_from_file wordlist with
                   | Some (w :: ws) => w :: ws
                   | _ => _DEFAULT_WORDS
                   end).
    assert (Hne : spec_vocabulary words' <> []).
    { subst words'. destruct wordlist as [lines|]; simpl.
      - destruct (_load_words_from_file lines) as [|w ws] eqn:Hl.
        + now rewrite default_words_fixed.
        + rewrite <- Hl, load_spec, spec_vocabulary_idem, <- load_spec, Hl. discriminate.
      - now rewrite default_words_fixed. }
    destruct (play_on_valid_words words' budget rng now inputs Hne) as (s & Hr & ->).
    now apply play_loop_result.
  - intros lines -> Hl. unfold play_from_file, play. simpl. now rewrite Hl.
Qed.

Example play_from_file_examples :
  play_from_file (Some ["123"; "x-ray"; ""]) 6 rng0 0%float
    [("p", 1%float); ("y", 2%float); ("t", 3%float); ("h", 4%float);
     ("o", 5%float); ("n", 6%float)] = Exit 0 /\
  play_from_file (Some [String.append "Kiwi" LF]) 1 rng0 0%float
    [("K", 1%float); ("e", 2%float)] = Exit 1.
Proof. vm_compute. repeat split; reflexivity. Qed.

Lemma effective_words_valid words :
  spec_vocabulary (effective_words words) = [] <-> no_valid_word words.
Proof.
  unfold no_valid_word. split.
  - destruct words as [[|w ws]|]; cbn [effective_words]; intros Hv.
    + now rewrite default_words_fixed in Hv.
    + eauto.
    + now rewrite default_words_fixed in Hv.
  - now intros (w & ws & -> & Hv).
Qed.

Lemma play_unfold words budget rng now inputs :
  play words budget rng now inputs =
  match __init__ (effective_words words) budget (Some rng) rng with
  | Raise e => Uncaught e
  | Ok engine =>
      match new_game engine now with
      | Raise e => Uncaught e
      | Ok (state, _) => play_loop state inputs
      end
  end.
Proof. reflexivity. Qed.

(** X18: the exceptions that escape [play].  The constructor's
    [ValueError] escapes exactly when the word list is not empty and has
    no valid word, and no other exception of the engine or of the frame
    table ever does.  The [EOFError] of [input()] escapes exactly when
    the engine is built and the run of guesses over all the input lines,
    from the first state, is not finished.  With [None] or an empty list
    the default vocabulary is played. *)
Theorem play_escaping_exceptions (words : option (list string)) (budget : Z)
    (rng : Random) (now : float) (inputs : list (string * float)) :
  (no_valid_word words <->
   exists msg, play words budget rng now inputs = Uncaught (ValueError msg)) /\
  (forall e, play words budget rng now inputs = Uncaught e ->
             exists msg, e = ValueError msg) /\
  (play words budget rng now inputs = EndOfInput <->
   exists e s e',
     __init__ (effective_words words) budget (Some rng) rng = Ok e /\
     new_game e now = Ok (s, e') /\
     finished (guesses s inputs) = false) /\
  play (Some []) budget rng now inputs = play None budget rng now inputs.
Proof.
  rewrite play_unfold.
  pose proof (init_outcome (effective_words words) budget (Some rng) rng) as Ho.
  pose proof (effective_words_valid words) as Hv.
  destruct (spec_vocabulary (effective_words words)) as [|w ws] eqn:Hs.
  - (* no valid word: the constructor raises *)
    destruct Ho as [msg Ho]. rewrite Ho.
    split; [|split; [|split; [|reflexivity]]].
    + split; [eauto | intros _; now apply Hv].
    + intros e [= <-]. eauto.
    + split; [discriminate | intros (e & s & e' & He & _); discriminate].
  - (* a vocabulary: the game is played *)
    assert (Hgood : ~ no_valid_word words) by (intros H%Hv; discriminate).
    set (e := {| _words := w :: ws; _max_mistakes := Z.max 1 budget; _rng := rng |}) in *.
    assert (Hc : constructed e).
    { exists (effective_words words), budget, (Some rng), rng. exact Ho. }
    rewrite Ho.
    destruct (choice_nonempty (_rng e) (_words e)) as (x & rng' & Hch & _); [discriminate|].
    destruct (new_game e now) as [[s e']|ex] eqn:Hng;
      [|unfold new_game in Hng; rewrite Hch in Hng; discriminate].
    assert (Hr : reachable s) by exact (reachable_new e now s e' Hc Hng).
    assert (Hm : 0 <= mistakes s) by (pose proof (reachable_bounds s Hr); lia).
    rewrite (play_loop_guesses s inputs Hm).
    split; [|split; [|split; [|reflexivity]]].
    + split; [contradiction|].
      intros [msg H]. destruct (finished _); discriminate.
    + intros e0 H. destruct (finished _); discriminate.
    + split.
      * intros H. exists e, s, e'. split; [reflexivity | split; [exact Hng|]].
        destruct (finished (guesses s inputs)); [discriminate | reflexivity].
      * intros (e1 & s1 & e1' & [= <-] & Hng1 & Hf).
        rewrite Hng in Hng1. injection Hng1 as <- <-. now rewrite Hf.
Qed.

Example play_raises_example :
  play (Some ["123"; "x-ray"]) 6 rng0 0%float [] =
  Uncaught (ValueError "Word list must contain at least one alphabetic word.") /\
  play (Some ["  "]) 6 rng0 0%float [] =
  Uncaught (ValueError "Word list must not be empty.") /\
  play (Some ["abc"]) 6 rng0 0%float [] = EndOfInput /\
  play (Some ["abc"]) 6 rng0 0%float [("a", 1%float); ("b", 2%float)] = EndOfInput.
Proof. vm_compute. repeat split; reflexivity. Qed.
